(** * A generic state machine: the transition table and its queries

    Shallow embedding of the Go package [statemachine]
    (type [StateMachine[S, E]] and its methods) and the properties of its
    transition table: lookup, registration, path validation, enumeration
    and the defensive copy of [GetTransitions]. *)

From stdpp Require Import gmap strings list fin_maps pretty.

(** ** The constraints on states and events

    [State] and [Event] are the Go constraints
    [interface { comparable; String() string }]. Being a map key gives
    decidable equality and hashing ([Countable]); every Go type has a zero
    value, which [Transition] and [GetNextState] return on a miss. *)

Class State (St : Type) `{Countable St} := {
  state_String : St → string;
  state_zero : St
}.

Class Event (Ev : Type) `{Countable Ev} := {
  event_String : Ev → string
}.

(** A Go map is a reference: [map[S]map[E]S] holds references to the inner
    maps, and a [map[E]S] handed to a caller may alias one of them.
    Locations name the [map[E]S] objects that [make] has allocated. *)
Definition loc := positive.

(** ** The monad of the methods

    A computation reads and writes the memory and may have several
    outcomes: [range] over a Go map visits the entries in an unspecified
    order, so a method that ranges has one outcome per order. A panic is
    the absence of an outcome. *)
Definition M (Σ A : Type) : Type := Σ → list (A * Σ).

Definition ret {Σ A} (a : A) : M Σ A := λ σ, [(a, σ)].

Definition bind {Σ A B} (m : M Σ A) (k : A → M Σ B) : M Σ B :=
  λ σ, r ← m σ; k r.1 r.2.

Definition panic {Σ A} : M Σ A := λ _, [].

(** A computation is total when it has an outcome from every memory: it
    does not panic. *)
Definition total {Σ A} (m : M Σ A) : Prop := ∀ σ, m σ ≠ [].

Notation "x <- m ;; k" := (bind m (λ x, k))
  (at level 100, m at next level, right associativity, only parsing).
Notation "m ;;; k" := (bind m (λ _, k))
  (at level 100, right associativity, only parsing).

Section statemachine.
Context {St Ev : Type} `{State St} `{Event Ev}.

(** The struct [Transition] of one transition rule (the method of the
    same name keeps the name [Transition] here; the field [Event] is
    [Event_], next to the constraint [Event]). *)
Record Transition_rule := mkTransition {
  From : St;
  Event_ : Ev;
  To : St
}.

(** The memory the methods run in: the field [sm.transitions] of the
    machine built by [NewStateMachine], and the [map[E]S] objects allocated
    so far (the machine's inner maps and the copies given to callers). *)
Record memory := Mem {
  sm_transitions : gmap St loc;
  maps : gmap loc (gmap Ev St)
}.

(** ** Errors

    The two [fmt.Errorf] calls, recorded with their arguments; [Error]
    renders the message as the format strings do ([%w] wraps the cause). *)
Inductive error :=
| Errorf_invalid_transition (event : Ev) (from : St)
| Errorf_invalid_path (step : nat) (err : error).

Fixpoint Error (e : error) : string :=
  match e with
  | Errorf_invalid_transition event from =>
      "invalid transition: cannot process event '" +:+ event_String event
        +:+ "' from state '" +:+ state_String from +:+ "'"
  | Errorf_invalid_path step err =>
      "invalid path at step " +:+ pretty step +:+ ": " +:+ Error err
  end%string.

Definition Unwrap (e : error) : option error :=
  match e with
  | Errorf_invalid_transition _ _ => None
  | Errorf_invalid_path _ err => Some err
  end.

Local Abbreviation M := (M memory).

(** *** Primitive steps on maps *)

(** [v, exists := sm.transitions[from]]; no inner map stored is nil (the
    only store is the [make] of [AddTransition]), so [None] is also the nil
    of the one-valued form [sm.transitions[from]]. *)
Definition transitions_get (from : St) : M (option loc) :=
  λ σ, [(σ.(sm_transitions) !! from, σ)].

(** [sm.transitions[from] = l] *)
Definition transitions_set (from : St) (l : loc) : M unit :=
  λ σ, [(tt, Mem (<[from := l]> σ.(sm_transitions)) σ.(maps))].

(** [make(map[E]S)]: a new, empty map at a location not in use (a
    capacity hint, as in [GetTransitions], does not change the content). *)
Definition make_map : M loc :=
  λ σ, let l := fresh (dom σ.(maps)) in
       [(l, Mem σ.(sm_transitions) (<[l := ∅]> σ.(maps)))].

(** [v, ok := m[event]] *)
Definition map_get (l : loc) (event : Ev) : M (option St) :=
  λ σ, [((σ.(maps) !!! l) !! event, σ)].

(** [m[event] = to] *)
Definition map_set (l : loc) (event : Ev) (to : St) : M unit :=
  λ σ, [(tt, Mem σ.(sm_transitions)
                 (<[l := <[event := to]> (σ.(maps) !!! l)]> σ.(maps)))].

(** [len(m)] *)
Definition map_len (l : loc) : M nat :=
  λ σ, [(size (σ.(maps) !!! l), σ)].

(** [for k, v := range m]: the entries, each once, in any order. *)
Definition map_range (l : loc) : M (list (Ev * St)) :=
  λ σ, (λ kvs, (kvs, σ)) <$> permutations (map_to_list (σ.(maps) !!! l)).

(** [for from := range sm.transitions]: the keys, each once, in any order. *)
Definition transitions_range : M (list St) :=
  λ σ, (λ kls, (kls.*1, σ)) <$> permutations (map_to_list σ.(sm_transitions)).

(** A [for ... range] loop over the sequence the range produced, threading
    the loop-carried variables. *)
Fixpoint for_range {A X} (xs : list X) (body : A → X → M A) (acc : A) : M A :=
  match xs with
  | [] => ret acc
  | x :: xs' => acc' <- body acc x ;; for_range xs' body acc'
  end.

(** *** The methods *)

Definition NewStateMachine : memory := Mem ∅ ∅.

Definition AddTransition (from : St) (event : Ev) (to : St) : M unit :=
  inner <- transitions_get from ;;
  (match inner with
   | None => l <- make_map ;; transitions_set from l
   | Some _ => ret tt
   end) ;;;
  inner <- transitions_get from ;;
  match inner with
  | Some l => map_set l event to
  | None => panic
  end.

Definition AddTransitions (transitions : list Transition_rule) : M unit :=
  for_range transitions
    (λ _ t, AddTransition t.(From) t.(Event_) t.(To)) tt.

Definition CanTransition (from : St) (event : Ev) : M bool :=
  transitions <- transitions_get from ;;
  match transitions with
  | Some l => r <- map_get l event ;; ret (bool_decide (is_Some r))
  | None => ret false
  end.

Definition Transition (from : St) (event : Ev) : M (St * option error) :=
  let miss := ret (state_zero, Some (Errorf_invalid_transition event from)) in
  transitions <- transitions_get from ;;
  match transitions with
  | Some l =>
      r <- map_get l event ;;
      match r with
      | Some newState => ret (newState, None)
      | None => miss
      end
  | None => miss
  end.

Definition GetValidEvents (from : St) : M (list Ev) :=
  transitions <- transitions_get from ;;
  match transitions with
  | Some l =>
      kvs <- map_range l ;;
      for_range kvs (λ events kv, ret (events ++ [kv.1])) []
  | None => ret []
  end.

Definition GetNextState (from : St) (event : Ev) : M (St * bool) :=
  let miss := ret (state_zero, false) in
  transitions <- transitions_get from ;;
  match transitions with
  | Some l =>
      r <- map_get l event ;;
      match r with
      | Some newState => ret (newState, true)
      | None => miss
      end
  | None => miss
  end.

Definition IsTerminalState (state : St) : M bool :=
  transitions <- transitions_get state ;;
  match transitions with
  | None => ret true
  | Some l => n <- map_len l ;; ret (bool_decide (n = 0))
  end.

Fixpoint ValidateTransitionPath_loop (i : nat) (currentState : St)
    (events : list Ev) : M (St * option error) :=
  match events with
  | [] => ret (currentState, None)
  | event :: events' =>
      r <- Transition currentState event ;;
      match r.2 with
      | Some err => ret (currentState, Some (Errorf_invalid_path (i + 1) err))
      | None => ValidateTransitionPath_loop (S i) r.1 events'
      end
  end.

Definition ValidateTransitionPath (start : St) (events : list Ev)
    : M (St * option error) :=
  ValidateTransitionPath_loop 0 start events.

(** [if !seen[s] { states = append(states, s); seen[s] = true }] *)
Definition note_state (acc : list St * gmap St bool) (s : St)
    : list St * gmap St bool :=
  if negb (default false (acc.2 !! s))
  then (acc.1 ++ [s], <[s := true]> acc.2)
  else acc.

(** The body of the outer loop of [GetAllStates], for one source state. *)
Definition GetAllStates_body (acc : list St * gmap St bool) (from : St)
    : M (list St * gmap St bool) :=
  let acc := note_state acc from in
  inner <- transitions_get from ;;
  match inner with
  | Some l =>
      kvs <- map_range l ;;
      for_range kvs (λ acc kv, ret (note_state acc kv.2)) acc
  | None => ret acc
  end.

Definition GetAllStates : M (list St) :=
  froms <- transitions_range ;;
  acc <- for_range froms GetAllStates_body ([], ∅) ;;
  ret acc.1.

Definition GetTransitions (from : St) : M loc :=
  transitions <- transitions_get from ;;
  match transitions with
  | Some l =>
      result <- make_map ;;
      kvs <- map_range l ;;
      for_range kvs (λ _ kv, map_set result kv.1 kv.2) tt ;;;
      ret result
  | None => make_map
  end.

(** ** The table a memory holds

    [table] reads the nested map through the references; [edge] is the
    destination registered for a (state, event) pair, if any. *)
Definition table (σ : memory) : gmap St (gmap Ev St) :=
  (λ l, σ.(maps) !!! l) <$> σ.(sm_transitions).

Definition edge (σ : memory) (from : St) (event : Ev) : option St :=
  table σ !! from ≫= (.!! event).

(** What [NewStateMachine] establishes and every method keeps: an inner
    map of the machine is allocated, owned by one source state, and holds
    at least one entry ([AddTransition] stores into the map it creates). *)
Record table_inv (σ : memory) : Prop := {
  inv_allocated : ∀ from l,
    σ.(sm_transitions) !! from = Some l → l ∈ dom σ.(maps);
  inv_nonempty : ∀ from l,
    σ.(sm_transitions) !! from = Some l → σ.(maps) !!! l ≠ ∅;
  inv_unshared : ∀ from1 from2 l,
    σ.(sm_transitions) !! from1 = Some l →
    σ.(sm_transitions) !! from2 = Some l → from1 = from2
}.

(** The loop invariant of [GetAllStates]: [seen] marks exactly the states
    appended so far, and none was appended twice. *)
Definition seen_inv (acc : list St * gmap St bool) : Prop :=
  NoDup acc.1 ∧ ∀ s, default false (acc.2 !! s) = true ↔ s ∈ acc.1.

(** A caller mutating the map object at [l] in any way: the object's
    content becomes [m]. *)
Definition caller_write (l : loc) (m : gmap Ev St) (σ : memory) : memory :=
  Mem σ.(sm_transitions) (<[l := m]> σ.(maps)).

(** ** Reference definitions, in the words of the specification *)

(** The strict left fold of [Transition] over the events: the state
    reached when every step succeeds, nothing as soon as one fails. *)
Fixpoint fold_transition (σ : memory) (s : St) (events : list Ev)
    : option St :=
  match events with
  | [] => Some s
  | event :: events' =>
      match Transition s event σ with
      | [((s', None), _)] => fold_transition σ s' events'
      | _ => None
      end
  end.

(** Registering the edges one call at a time, in sequence order. *)
Fixpoint register_each (edges : list Transition_rule) : M unit :=
  match edges with
  | [] => ret tt
  | t :: edges' =>
      AddTransition t.(From) t.(Event_) t.(To) ;;; register_each edges'
  end.

(** The destination of the last edge of the sequence with the given key. *)
Definition last_write (edges : list Transition_rule) (from : St) (event : Ev)
    : option St :=
  To <$> last (filter (λ t, t.(From) = from ∧ t.(Event_) = event) edges).

End statemachine.

Arguments Transition_rule : clear implicits.
Arguments memory St Ev {_ _ _ _}.
Arguments error : clear implicits.

(** ** The order workflow of the examples

    States and events are strings, as [OrderState] and [OrderEvent] are;
    their [String] method is the identity and their zero value the empty
    string. *)
Module Order.

#[export] Instance OrderState : State string :=
  {| state_String := id; state_zero := EmptyString |}.

#[export] Instance OrderEvent : Event string :=
  {| event_String := id |}.

Definition rules : list (Transition_rule string string) :=
  [ mkTransition "Pending" "Confirm" "Processing";
    mkTransition "Processing" "Ship" "Shipped";
    mkTransition "Shipped" "Deliver" "Delivered";
    mkTransition "Pending" "Cancel" "Cancelled";
    mkTransition "Processing" "Cancel" "Cancelled";
    mkTransition "Delivered" "Refund" "Refunded";
    mkTransition "Cancelled" "Refund" "Refunded" ].

(** The memory after [NewOrderStateMachine]. *)
Definition machine : memory string string :=
  match AddTransitions rules NewStateMachine with
  | [(_, σ)] => σ
  | _ => NewStateMachine
  end.

End Order.

(** ** Sequences of calls

    What a program holding the machine can do to the memory: call the
    methods, and write through map references of its own (the copies
    [GetTransitions] returned); the machine's inner maps are reachable only
    through the unexported field. *)
Section calls.
Context {St Ev : Type} `{State St} `{Event Ev}.

Inductive call :=
| call_AddTransition (from : St) (event : Ev) (to : St)
| call_AddTransitions (transitions : list (Transition_rule St Ev))
| call_CanTransition (from : St) (event : Ev)
| call_Transition (from : St) (event : Ev)
| call_GetValidEvents (from : St)
| call_GetNextState (from : St) (event : Ev)
| call_IsTerminalState (state : St)
| call_ValidateTransitionPath (start : St) (events : list Ev)
| call_GetAllStates
| call_GetTransitions (from : St).

(** The effect of a call on the memory, its result dropped. *)
Definition run_call (c : call) : M (memory St Ev) unit :=
  match c with
  | call_AddTransition from event to => AddTransition from event to
  | call_AddTransitions transitions => AddTransitions transitions
  | call_CanTransition from event => CanTransition from event ;;; ret tt
  | call_Transition from event => Transition from event ;;; ret tt
  | call_GetValidEvents from => GetValidEvents from ;;; ret tt
  | call_GetNextState from event => GetNextState from event ;;; ret tt
  | call_IsTerminalState state => IsTerminalState state ;;; ret tt
  | call_ValidateTransitionPath start events =>
      ValidateTransitionPath start events ;;; ret tt
  | call_GetAllStates => GetAllStates ;;; ret tt
  | call_GetTransitions from => GetTransitions from ;;; ret tt
  end.

Inductive reachable : memory St Ev → Prop :=
| reachable_new : reachable NewStateMachine
| reachable_call σ c σ' :
    reachable σ → (tt, σ') ∈ run_call c σ → reachable σ'
| reachable_caller_write σ l m :
    reachable σ →
    (∀ from, σ.(sm_transitions) !! from ≠ Some l) →
    reachable (caller_write l m σ).

(** Renumbering the step of a path error: the error of a path validated
    after [n] earlier events. *)
Definition shift_step (n : nat) (err : error St Ev) : error St Ev :=
  match err with
  | Errorf_invalid_path step cause => Errorf_invalid_path (n + step) cause
  | Errorf_invalid_transition _ _ => err
  end.

End calls.

(** ** The services of the examples *)

(** [OrderService]: the order is the struct behind the pointer the method
    receives, returned as the method leaves it. The type of [Total] is a
    parameter; the method only carries the field. *)
Module OrderService.
Import Order.
Section order.
Context {float64 : Type}.

Record Order := mkOrder {
  ID : Z;
  State_ : string;
  Total : float64;
  UserID : Z
}.

Definition TransitionOrder (order : Order) (event : string)
    : M (memory string string) (Order * option (error string string)) :=
  r <- Transition order.(State_) event ;;
  match r.2 with
  | Some err => ret (order, Some err)
  | None =>
      ret (mkOrder order.(ID) r.1 order.(Total) order.(UserID), None)
  end.

End order.
Arguments Order : clear implicits.
End OrderService.

(** [DocumentService] and the document workflow. *)
Module Document.
Import Order.

Definition rules : list (Transition_rule string string) :=
  [ mkTransition "Draft" "Submit" "Submitted";
    mkTransition "Submitted" "Review" "Reviewing";
    mkTransition "Reviewing" "Approve" "Approved";
    mkTransition "Approved" "Publish" "Published";
    mkTransition "Reviewing" "Reject" "Rejected";
    mkTransition "Rejected" "Revise" "Draft";
    mkTransition "Published" "Archive" "Archived" ].

(** The memory after [NewDocumentStateMachine]. *)
Definition machine : memory string string :=
  match AddTransitions rules NewStateMachine with
  | [(_, σ)] => σ
  | _ => NewStateMachine
  end.

Record Document := mkDocument {
  ID : Z;
  Title : string;
  State_ : string;
  AuthorID : Z
}.

Definition CanUserApprove (doc : Document) : M (memory string string) bool :=
  CanTransition doc.(State_) "Approve".

Definition GetAvailableActions (doc : Document)
    : M (memory string string) (list string) :=
  GetValidEvents doc.(State_).

End Document.

(** [UserService] and the signup workflow. The repository is an interface:
    its state, its errors and the two methods the service calls are
    parameters, as is the user struct with its [State] field. The context
    argument is handed to the repository as it is and belongs to the
    repository's behaviour here. *)
Module User.
Import Order.

Definition rules : list (Transition_rule string string) :=
  [ mkTransition "Initial" "SubmitSignup" "EmailPendingVerification";
    mkTransition "Initial" "SignUpFailed" "SignupRejected";
    mkTransition "EmailPendingVerification" "ClickVerificationLink"
      "EmailVerified";
    mkTransition "EmailPendingVerification" "SignUpFailed" "SignupRejected";
    mkTransition "EmailVerified" "CompleteProfile" "SignUpComplete";
    mkTransition "EmailVerified" "SignUpFailed" "SignupRejected" ].

(** The memory after [NewUserStateMachine]. *)
Definition machine : memory string string :=
  match AddTransitions rules NewStateMachine with
  | [(_, σ)] => σ
  | _ => NewStateMachine
  end.

Section service.
Context {User Repo RepoError : Type}.
Context (User_State : User → string).
Context (GetByID : Z → Repo → (User * option RepoError) * Repo).
Context (UpdateState : Z → string → Repo → option RepoError * Repo).

(** The errors the service returns: the three [fmt.Errorf] calls, each
    wrapping its cause. *)
Inductive service_error :=
| Errorf_failed_to_get_user (err : RepoError)
| Errorf_invalid_state_transition (err : error string string)
| Errorf_failed_to_update_user_state (err : RepoError).

(** The service runs on the repository and on the machine it holds. *)
Definition repo_call {A} (f : Repo → A * Repo)
    : M (Repo * memory string string) A :=
  λ ρσ, [((f ρσ.1).1, ((f ρσ.1).2, ρσ.2))].

Definition machine_call {A} (m : M (memory string string) A)
    : M (Repo * memory string string) A :=
  λ ρσ, (λ r, (r.1, (ρσ.1, r.2))) <$> m ρσ.2.

Definition ProcessEvent (userID : Z) (event : string)
    : M (Repo * memory string string) (option service_error) :=
  user <- repo_call (GetByID userID) ;;
  match user.2 with
  | Some err => ret (Some (Errorf_failed_to_get_user err))
  | None =>
      r <- machine_call (Transition (User_State user.1) event) ;;
      match r.2 with
      | Some err => ret (Some (Errorf_invalid_state_transition err))
      | None =>
          err <- repo_call (UpdateState userID r.1) ;;
          match err with
          | Some err => ret (Some (Errorf_failed_to_update_user_state err))
          | None => ret None
          end
      end
  end.

Definition CanProcessEvent (userID : Z) (event : string)
    : M (Repo * memory string string) (bool * option service_error) :=
  user <- repo_call (GetByID userID) ;;
  match user.2 with
  | Some err => ret (false, Some (Errorf_failed_to_get_user err))
  | None =>
      b <- machine_call (CanTransition (User_State user.1) event) ;;
      ret (b, None)
  end.

(** The method [UserService.GetValidEvents]; a nil slice is the empty one. *)
Definition GetValidEvents_of_user (userID : Z)
    : M (Repo * memory string string) (list string * option service_error) :=
  user <- repo_call (GetByID userID) ;;
  match user.2 with
  | Some err => ret ([], Some (Errorf_failed_to_get_user err))
  | None =>
      events <- machine_call (GetValidEvents (User_State user.1)) ;;
      ret (events, None)
  end.

Definition VerifyEmail (userID : Z) := ProcessEvent userID "ClickVerificationLink".

Definition CompleteProfile (userID : Z) := ProcessEvent userID "CompleteProfile".

Definition RejectSignup (userID : Z) := ProcessEvent userID "SignUpFailed".

End service.
End User.

(** * Properties *)

(** ** Running computations *)
Section monad.
Context {Σ : Type}.
Implicit Types σ : Σ.

Lemma bind_run {A B} (m : M Σ A) (k : A → M Σ B) σ a σ' :
  m σ = [(a, σ')] → bind m k σ = k a σ'.
Proof. unfold bind. intros ->. simpl. apply app_nil_r. Qed.

Lemma bind_ret {A B} (a : A) (k : A → M Σ B) σ : bind (ret a) k σ = k a σ.
Proof. by apply bind_run. Qed.

Lemma elem_of_bind {A B} (m : M Σ A) (k : A → M Σ B) σ b σ2 :
  (b, σ2) ∈ bind m k σ ↔ ∃ a σ1, (a, σ1) ∈ m σ ∧ (b, σ2) ∈ k a σ1.
Proof.
  unfold bind. rewrite list_elem_of_bind. split.
  - intros [[a σ1] [Hk Hm]]. by exists a, σ1.
  - intros (a & σ1 & Hm & Hk). by exists (a, σ1).
Qed.

Lemma elem_of_ret {A} (a b : A) σ σ' : (b, σ') ∈ ret a σ ↔ b = a ∧ σ' = σ.
Proof.
  unfold ret. rewrite list_elem_of_singleton.
  split; [by intros [= -> ->] | by intros [-> ->]].
Qed.

Lemma total_ret {A} (a : A) : total (ret (Σ:=Σ) a).
Proof. by intros σ. Qed.

Lemma total_bind {A B} (m : M Σ A) (k : A → M Σ B) :
  total m → (∀ a, total (k a)) → total (bind m k).
Proof.
  intros Hm Hk σ. specialize (Hm σ).
  destruct (m σ) as [|[a σ1] rest] eqn:Em; [done|].
  specialize (Hk a σ1). unfold bind. rewrite Em. csimpl.
  destruct (k a σ1); [done|]. discriminate.
Qed.

(** An outcome of a computation that has one outcome and keeps the memory
    is known from the value alone. *)
Lemma elem_of_run {A} (m : M Σ A) σ (a : A) :
  (∃ a', m σ = [(a', σ)]) → (m σ).*1 = [a] → (a, σ) ∈ m σ.
Proof. intros [a' ->] [= ->]. apply list_elem_of_here. Qed.

End monad.

(** ** Lookups *)
Section lookup.
Context {St Ev : Type} `{State St} `{Event Ev}.
Implicit Types (σ : memory St Ev) (from to : St) (event : Ev).

Lemma edge_unfold σ from event :
  edge σ from event = l ← σ.(sm_transitions) !! from; (σ.(maps) !!! l) !! event.
Proof. unfold edge, table. rewrite lookup_fmap. by destruct (_ !! from). Qed.

Lemma edge_unknown σ from event :
  σ.(sm_transitions) !! from = None → edge σ from event = None.
Proof. rewrite edge_unfold. by intros ->. Qed.

Lemma Transition_run σ from event :
  Transition from event σ =
    [(match edge σ from event with
      | Some to => (to, None)
      | None => (state_zero, Some (Errorf_invalid_transition event from))
      end, σ)].
Proof.
  rewrite edge_unfold. unfold Transition.
  rewrite (bind_run _ _ σ (σ.(sm_transitions) !! from) σ) by done.
  destruct (σ.(sm_transitions) !! from) as [l|]; simpl; [|done].
  rewrite (bind_run _ _ σ ((σ.(maps) !!! l) !! event) σ) by done.
  by destruct (_ !! event).
Qed.

Lemma CanTransition_run σ from event :
  CanTransition from event σ = [(bool_decide (is_Some (edge σ from event)), σ)].
Proof.
  rewrite edge_unfold. unfold CanTransition.
  rewrite (bind_run _ _ σ (σ.(sm_transitions) !! from) σ) by done.
  destruct (σ.(sm_transitions) !! from) as [l|]; simpl; [|done].
  by rewrite (bind_run _ _ σ ((σ.(maps) !!! l) !! event) σ).
Qed.

Lemma GetNextState_run σ from event :
  GetNextState from event σ =
    [(match edge σ from event with
      | Some to => (to, true)
      | None => (state_zero, false)
      end, σ)].
Proof.
  rewrite edge_unfold. unfold GetNextState.
  rewrite (bind_run _ _ σ (σ.(sm_transitions) !! from) σ) by done.
  destruct (σ.(sm_transitions) !! from) as [l|]; simpl; [|done].
  rewrite (bind_run _ _ σ ((σ.(maps) !!! l) !! event) σ) by done.
  by destruct (_ !! event).
Qed.

(** C2. A pair with no registered edge is a miss for the three lookups
    alike: [CanTransition] answers false, [Transition] fails with the
    invalid-transition error for that pair, [GetNextState] reports absence;
    none changes the memory. A source state the machine has never seen
    makes [CanTransition] answer false, without a panic. *)
Theorem miss_is_total σ from event :
  edge σ from event = None →
  CanTransition from event σ = [(false, σ)] ∧
  Transition from event σ =
    [((state_zero, Some (Errorf_invalid_transition event from)), σ)] ∧
  GetNextState from event σ = [((state_zero, false), σ)] ∧
  (σ.(sm_transitions) !! from = None →
   ∀ event', CanTransition from event' σ = [(false, σ)]).
Proof.
  intros Hmiss.
  rewrite CanTransition_run, Transition_run, GetNextState_run, Hmiss.
  repeat split. intros Hunknown event'.
  by rewrite CanTransition_run, edge_unknown.
Qed.

(** C9. On a miss the state [Transition] returns with the error is the
    zero value of the state type, whatever the source state was; it
    differs from the source state unless that is the zero value itself. *)
Theorem Transition_miss_returns_zero σ from event :
  edge σ from event = None →
  ∃ err, Transition from event σ = [((state_zero, Some err), σ)] ∧
         (from ≠ state_zero →
          ∀ r σ', (r, σ') ∈ Transition from event σ → r.1 ≠ from).
Proof.
  intros Hmiss. rewrite Transition_run, Hmiss. eexists. split; [done|].
  intros Hne r σ' [= -> ->]%list_elem_of_singleton. simpl. congruence.
Qed.

End lookup.

(** ** Path validation *)
Section path.
Context {St Ev : Type} `{State St} `{Event Ev}.
Implicit Types (σ : memory St Ev) (s start : St) (events : list Ev).

Lemma fold_transition_cons σ s event events :
  fold_transition σ s (event :: events) =
    edge σ s event ≫= λ s', fold_transition σ s' events.
Proof. simpl. rewrite Transition_run. by destruct (edge σ s event). Qed.

(** The loop from step counter [i]: one outcome, the memory untouched;
    either every step succeeded and the fold's state is returned, or step
    [k] (counting from 0) is the first to fail and the loop stops there. *)
Lemma ValidateTransitionPath_loop_spec σ events : ∀ i s,
  ∃ r, ValidateTransitionPath_loop i s events σ = [(r, σ)] ∧
    ((r.2 = None ∧ fold_transition σ s events = Some r.1) ∨
     (∃ k event,
        events !! k = Some event ∧
        fold_transition σ s (take k events) = Some r.1 ∧
        edge σ r.1 event = None ∧
        r.2 = Some (Errorf_invalid_path (i + k + 1)
                      (Errorf_invalid_transition event r.1)) ∧
        fold_transition σ s events = None)).
Proof.
  induction events as [|event events IH]; intros i s.
  { eexists. split; [done|]. by left. }
  cbn [ValidateTransitionPath_loop]. rewrite fold_transition_cons.
  erewrite bind_run by apply Transition_run.
  destruct (edge σ s event) as [s'|] eqn:Hedge; simpl.
  - destruct (IH (S i) s') as (r & -> & Hr). exists r. split; [done|].
    destruct Hr as [?|(k & ev & Hk & Hpre & Hmiss & Herr & Hnone)]; [by left|].
    right. exists (S k), ev. rewrite Herr.
    cbn [take]. rewrite fold_transition_cons, Hedge. simpl.
    repeat split; try done. do 3 f_equal. lia.
  - eexists. split; [done|]. right. exists 0, event. simpl.
    repeat split; try done. do 3 f_equal. lia.
Qed.

Lemma ValidateTransitionPath_run σ start events :
  ∃ r, ValidateTransitionPath start events σ = [(r, σ)].
Proof.
  destruct (ValidateTransitionPath_loop_spec σ events 0 start) as (r & ? & _).
  by exists r.
Qed.

(** C1. [ValidateTransitionPath] is the strict left fold of [Transition]:
    it has one outcome and leaves the memory alone; it returns no error
    exactly when the fold succeeds, and then returns the fold's final
    state; when it returns an error, some step [k] (from 0) is the first
    whose transition fails from the state reached by the [k] steps before
    it, and the error wraps that failure with step number [k + 1]. *)
Theorem ValidateTransitionPath_fold σ start events :
  ∃ r, ValidateTransitionPath start events σ = [(r, σ)] ∧
    (r.2 = None ↔ is_Some (fold_transition σ start events)) ∧
    (r.2 = None → fold_transition σ start events = Some r.1) ∧
    (∀ err, r.2 = Some err →
       ∃ k event cause,
         events !! k = Some event ∧
         fold_transition σ start (take k events) = Some r.1 ∧
         Transition r.1 event σ = [((state_zero, Some cause), σ)] ∧
         err = Errorf_invalid_path (k + 1) cause).
Proof.
  destruct (ValidateTransitionPath_loop_spec σ events 0 start)
    as (r & Hrun & Hr).
  exists r. split; [done|].
  destruct Hr as [[Hok Hfold]|(k & event & Hk & Hpre & Hmiss & Herr & Hnone)].
  - rewrite Hok, Hfold. repeat split; eauto. intros err [=].
  - rewrite Herr, Hnone. split; [|split]; [|done|].
    + split; [done|]. intros Hsome. by apply is_Some_None in Hsome.
    + intros err [= <-]. exists k, event. eexists.
      rewrite Transition_run, Hmiss. done.
Qed.

(** C7. The empty path is the identity: the start state comes back with
    no error, and the memory is untouched. *)
Theorem ValidateTransitionPath_nil σ s :
  ValidateTransitionPath s [] σ = [((s, None), σ)].
Proof. reflexivity. Qed.

(** C10. When [ValidateTransitionPath] fails, the error is the path error
    of some step [i ≥ 1], and the state returned with it is the one the
    first [i - 1] events lead to from the start state (the start state
    itself when [i = 1]): the state the failing transition was attempted
    from, not the zero value that transition returned; no final state
    exists then. *)
Theorem ValidateTransitionPath_failure_state σ start events s err σ' :
  ((s, Some err), σ') ∈ ValidateTransitionPath start events σ →
  ∃ i event cause,
    err = Errorf_invalid_path i cause ∧ 1 ≤ i ∧
    events !! (i - 1) = Some event ∧
    fold_transition σ start (take (i - 1) events) = Some s ∧
    (i = 1 → s = start) ∧
    Transition s event σ = [((state_zero, Some cause), σ)] ∧
    fold_transition σ start events = None.
Proof.
  destruct (ValidateTransitionPath_loop_spec σ events 0 start)
    as (r & Hrun & Hr).
  unfold ValidateTransitionPath. rewrite Hrun.
  intros [= <- <-]%list_elem_of_singleton. simpl in Hr.
  destruct Hr as [[? _]|(k & event & Hk & Hpre & Hmiss & [= ->] & Hnone)];
    [done|].
  exists (k + 1), event. eexists.
  replace (k + 1 - 1) with k by lia.
  repeat split; try done; try lia.
  - intros Hi. assert (k = 0) as -> by lia. simpl in Hpre. congruence.
  - by rewrite Transition_run, Hmiss.
Qed.

End path.

(** ** Registration *)
Section registration.
Context {St Ev : Type} `{State St} `{Event Ev}.
Implicit Types (σ : memory St Ev) (from to : St) (event : Ev).
Implicit Types (edges : list (Transition_rule St Ev)).

Lemma table_inv_NewStateMachine : table_inv (NewStateMachine (St:=St) (Ev:=Ev)).
Proof. by split; simpl; intros *; rewrite lookup_empty. Qed.

(** The memory one [AddTransition] call leaves behind. *)
Lemma AddTransition_run σ from event to :
  AddTransition from event to σ =
    [(tt, match σ.(sm_transitions) !! from with
          | Some l =>
              Mem σ.(sm_transitions)
                  (<[l := <[event := to]> (σ.(maps) !!! l)]> σ.(maps))
          | None =>
              let l := fresh (dom σ.(maps)) in
              Mem (<[from := l]> σ.(sm_transitions))
                  (<[l := {[event := to]}]> σ.(maps))
          end)].
Proof.
  unfold AddTransition.
  rewrite (bind_run _ _ σ (σ.(sm_transitions) !! from) σ) by done.
  destruct (σ.(sm_transitions) !! from) as [l|] eqn:Hfrom.
  - rewrite bind_ret.
    by rewrite (bind_run _ _ σ (Some l) σ) by (by unfold transitions_get; rewrite Hfrom).
  - set (l := fresh (dom σ.(maps))).
    set (σ1 := Mem (<[from := l]> σ.(sm_transitions)) (<[l := ∅]> σ.(maps))).
    rewrite (bind_run _ _ σ tt σ1) by done.
    rewrite (bind_run _ _ σ1 (Some l) σ1)
      by (unfold transitions_get; simpl; by rewrite lookup_insert_eq).
    unfold map_set, σ1. simpl.
    by rewrite lookup_total_insert_eq, insert_insert_eq, insert_empty.
Qed.

Lemma total_AddTransition from event to : total (AddTransition from event to).
Proof. intros σ. by rewrite AddTransition_run. Qed.

(** The edge just registered is there, whatever the memory was. *)
Lemma AddTransition_edge_eq σ σ' from event to :
  AddTransition from event to σ = [(tt, σ')] → edge σ' from event = Some to.
Proof.
  rewrite AddTransition_run. intros [= <-]. rewrite edge_unfold.
  destruct (σ.(sm_transitions) !! from) as [l|] eqn:Hfrom; simpl.
  - rewrite Hfrom. simpl. by rewrite lookup_total_insert_eq, lookup_insert_eq.
  - rewrite lookup_insert_eq. simpl.
    by rewrite lookup_total_insert_eq, lookup_singleton_eq.
Qed.

(** On a machine that satisfies the invariant, [AddTransition] keeps the
    invariant and changes the table at the one key it writes. *)
Lemma AddTransition_table σ σ' from event to :
  table_inv σ →
  AddTransition from event to σ = [(tt, σ')] →
  table_inv σ' ∧
  table σ' =
    <[from := <[event := to]> (default ∅ (table σ !! from))]> (table σ).
Proof.
  intros [Halloc Hne Hunsh]. rewrite AddTransition_run. intros [= <-].
  destruct (σ.(sm_transitions) !! from) as [l|] eqn:Hfrom.
  - split.
    + split; simpl.
      * intros f l' Hf. rewrite dom_insert_L. apply Halloc in Hf. set_solver.
      * intros f l' Hf. destruct (decide (l' = l)) as [->|Hl].
        -- rewrite lookup_total_insert_eq. apply insert_non_empty.
        -- rewrite lookup_total_insert_ne by done. eauto.
      * done.
    + apply map_eq. intros f. unfold table. simpl.
      rewrite !lookup_fmap. destruct (decide (f = from)) as [->|Hf].
      * rewrite lookup_insert_eq, !Hfrom. simpl.
        by rewrite lookup_total_insert_eq.
      * rewrite lookup_insert_ne, lookup_fmap by done.
        destruct (σ.(sm_transitions) !! f) as [l'|] eqn:Hf'; simpl; [|done].
        rewrite lookup_total_insert_ne; [done|].
        intros <-. apply Hf. eauto.
  - set (l := fresh (dom σ.(maps))).
    assert (∀ f l', σ.(sm_transitions) !! f = Some l' → l' ≠ l) as Hfresh.
    { intros f l' Hf%Halloc ->. by apply (is_fresh (dom σ.(maps))). }
    split.
    + split; simpl.
      * intros f l'. rewrite dom_insert_L.
        destruct (decide (f = from)) as [->|Hf].
        -- rewrite lookup_insert_eq. intros [= <-]. set_solver.
        -- rewrite lookup_insert_ne by done. intros Hf'%Halloc. set_solver.
      * intros f l'. destruct (decide (f = from)) as [->|Hf].
        -- rewrite lookup_insert_eq. intros [= <-].
           rewrite lookup_total_insert_eq. apply insert_non_empty.
        -- rewrite lookup_insert_ne by done. intros Hf'.
           rewrite lookup_total_insert_ne by (symmetry; eauto). eauto.
      * intros f1 f2 l'.
        destruct (decide (f1 = from)) as [->|Hf1],
                 (decide (f2 = from)) as [->|Hf2]; [done|..];
          rewrite ?lookup_insert_eq, ?lookup_insert_ne by done.
        -- intros [= <-] Hf2'. by apply Hfresh in Hf2'.
        -- intros Hf1' [= <-]. by apply Hfresh in Hf1'.
        -- eauto.
    + apply map_eq. intros f. unfold table. simpl.
      rewrite !lookup_fmap. destruct (decide (f = from)) as [->|Hf].
      * rewrite !lookup_insert_eq, Hfrom. simpl.
        by rewrite lookup_total_insert_eq, insert_empty.
      * rewrite !lookup_insert_ne, lookup_fmap by done.
        destruct (σ.(sm_transitions) !! f) as [l'|] eqn:Hf'; simpl; [|done].
        rewrite lookup_total_insert_ne; [done|]. symmetry. eauto.
Qed.

Lemma AddTransition_edge σ σ' from event to f e :
  table_inv σ →
  AddTransition from event to σ = [(tt, σ')] →
  edge σ' f e =
    if decide (f = from ∧ e = event) then Some to else edge σ f e.
Proof.
  intros Hinv Hrun. destruct (AddTransition_table _ _ _ _ _ Hinv Hrun) as [_ Ht].
  unfold edge. rewrite Ht. destruct (decide (f = from)) as [->|Hf].
  - rewrite lookup_insert_eq. simpl. destruct (decide (e = event)) as [->|He].
    + rewrite lookup_insert_eq. by rewrite decide_True.
    + rewrite lookup_insert_ne by done.
      rewrite decide_False by (by intros [_ ?]).
      by destruct (table σ !! from).
  - rewrite lookup_insert_ne by done.
    by rewrite decide_False by (by intros [? _]).
Qed.

(** C3. Registering [(s, e, t1)] and then [(s, e, t2)]: both calls have
    their one outcome from any memory (no panic, no error to return), the
    pair is accepted after each, and [Transition] then yields [t2]. *)
Theorem last_write_wins σ s e t1 t2 :
  ∃ σ1 σ2,
    AddTransition s e t1 σ = [(tt, σ1)] ∧
    CanTransition s e σ1 = [(true, σ1)] ∧
    AddTransition s e t2 σ1 = [(tt, σ2)] ∧
    Transition s e σ2 = [((t2, None), σ2)] ∧
    CanTransition s e σ2 = [(true, σ2)].
Proof.
  eexists _, _.
  split; [apply AddTransition_run|].
  split; [by erewrite CanTransition_run,
            (AddTransition_edge_eq σ) by apply AddTransition_run|].
  split; [apply AddTransition_run|].
  by erewrite Transition_run, CanTransition_run,
    (AddTransition_edge_eq _ _ s e t2) by apply AddTransition_run.
Qed.

Lemma AddTransitions_cons σ t edges :
  AddTransitions (t :: edges) σ =
    bind (AddTransition t.(From) t.(Event_) t.(To))
         (λ _, AddTransitions edges) σ.
Proof.
  unfold AddTransitions. cbn [for_range].
  by erewrite !bind_run by apply AddTransition_run.
Qed.

Lemma AddTransitions_register_each edges σ :
  AddTransitions edges σ = register_each edges σ.
Proof.
  revert σ. induction edges as [|t edges IH]; intros σ; [done|].
  rewrite AddTransitions_cons. cbn [register_each].
  by erewrite !bind_run by apply AddTransition_run.
Qed.

Lemma AddTransitions_run edges σ :
  ∃ σ', AddTransitions edges σ = [(tt, σ')].
Proof.
  revert σ. induction edges as [|t edges IH]; intros σ; [by eexists|].
  rewrite AddTransitions_cons. erewrite bind_run by apply AddTransition_run.
  apply IH.
Qed.

Lemma last_write_cons t edges from event :
  last_write (t :: edges) from event =
    match last_write edges from event with
    | Some to => Some to
    | None =>
        if decide (from = t.(From) ∧ event = t.(Event_))
        then Some t.(To) else None
    end.
Proof.
  unfold last_write. rewrite filter_cons.
  destruct (decide (t.(From) = from ∧ t.(Event_) = event)) as [[<- <-]|Hkey].
  - rewrite last_cons, decide_True by done. by destruct (last _).
  - rewrite decide_False by (intros [-> ->]; by apply Hkey).
    by destruct (last _).
Qed.

Lemma AddTransitions_table_inv edges : ∀ σ σ',
  table_inv σ →
  AddTransitions edges σ = [(tt, σ')] →
  table_inv σ' ∧
  ∀ from event,
    edge σ' from event =
      match last_write edges from event with
      | Some to => Some to
      | None => edge σ from event
      end.
Proof.
  induction edges as [|t edges IH]; intros σ σ' Hinv.
  { by intros [= <-]. }
  rewrite AddTransitions_cons.
  erewrite bind_run by apply AddTransition_run. intros Hrest.
  pose proof (AddTransition_run σ t.(From) t.(Event_) t.(To)) as Hone.
  destruct (AddTransition_table _ _ _ _ _ Hinv Hone) as [Hinv1 _].
  destruct (IH _ _ Hinv1 Hrest) as [Hinv' Hedge].
  split; [done|]. intros from event.
  rewrite Hedge, last_write_cons.
  destruct (last_write edges from event); [done|].
  rewrite (AddTransition_edge _ _ _ _ _ _ _ Hinv Hone).
  by destruct (decide _).
Qed.

Lemma last_write_rule edges from event to :
  last_write edges from event = Some to →
  ∃ t, t ∈ edges ∧ t.(From) = from ∧ t.(Event_) = event ∧ t.(To) = to.
Proof.
  unfold last_write. destruct (last _) as [t|] eqn:Hlast; [|done].
  intros [= <-].
  apply last_Some_elem_of, list_elem_of_filter in Hlast as [[? ?] ?].
  by exists t.
Qed.

(** On a machine built from [NewStateMachine] by one batch, the edges are
    the last writes of the batch: a pair is registered exactly when some
    edge of the batch has it as key. *)
Lemma edge_of_built edges σ from event :
  AddTransitions edges NewStateMachine = [(tt, σ)] →
  table_inv σ ∧ edge σ from event = last_write edges from event.
Proof.
  intros Hrun.
  destruct (AddTransitions_table_inv edges _ _ table_inv_NewStateMachine Hrun)
    as [Hinv Hedge].
  split; [done|]. rewrite Hedge. by destruct (last_write _ _ _).
Qed.

(** C6. [AddTransitions] is registration one edge at a time, in sequence
    order; it has its one outcome from any memory (it cannot fail); and on
    a machine the package built, a key's destination afterwards is that of
    the last edge of the sequence with the key, or what it was before when
    the sequence has none. *)
Theorem AddTransitions_refines_register_each edges σ :
  AddTransitions edges σ = register_each edges σ ∧
  ∃ σ', AddTransitions edges σ = [(tt, σ')] ∧
    (table_inv σ →
     table_inv σ' ∧
     ∀ from event,
       edge σ' from event =
         match last_write edges from event with
         | Some to => Some to
         | None => edge σ from event
         end).
Proof.
  split; [apply AddTransitions_register_each|].
  destruct (AddTransitions_run edges σ) as [σ' Hrun].
  exists σ'. split; [done|]. intros Hinv.
  by apply (AddTransitions_table_inv edges σ).
Qed.

End registration.

(** ** Enumeration *)
Section enumeration.
Context {St Ev : Type} `{State St} `{Event Ev}.
Implicit Types (σ : memory St Ev) (s from to : St) (event e : Ev).

(** A loop whose body only computes is a left fold. *)
Lemma for_range_pure {A X} (f : A → X → A) (xs : list X) (a : A) σ :
  for_range xs (λ acc x, ret (f acc x)) a σ = [(foldl f a xs, σ)].
Proof.
  revert a. induction xs as [|x xs IH]; intros a; [done|].
  cbn [for_range]. by rewrite bind_ret, IH.
Qed.

Lemma foldl_append_fst {A B} (kvs : list (A * B)) (acc : list A) :
  foldl (λ events kv, events ++ [kv.1]) acc kvs = acc ++ kvs.*1.
Proof.
  revert acc. induction kvs as [|kv kvs IH]; intros acc; simpl.
  - by rewrite app_nil_r.
  - by rewrite IH, <- app_assoc.
Qed.

Lemma elem_of_map_range σ l kvs σ' :
  (kvs, σ') ∈ map_range l σ ↔ σ' = σ ∧ map_to_list (σ.(maps) !!! l) ≡ₚ kvs.
Proof.
  unfold map_range. rewrite list_elem_of_fmap. split.
  - intros (kvs' & [= -> ->] & Hperm%permutations_Permutation). done.
  - intros [-> Hperm]. exists kvs. by rewrite permutations_Permutation.
Qed.

Lemma elem_of_transitions_range σ froms σ' :
  (froms, σ') ∈ transitions_range σ →
  σ' = σ ∧ NoDup froms ∧ ∀ from, from ∈ froms ↔ is_Some (σ.(sm_transitions) !! from).
Proof.
  unfold transitions_range. rewrite list_elem_of_fmap.
  intros (kls & [= -> ->] & Hperm%permutations_Permutation).
  split; [done|]. split.
  - rewrite <- Hperm. apply NoDup_fst_map_to_list.
  - intros from. rewrite <- Hperm, list_elem_of_fmap. split.
    + intros ([f l] & -> & Hin%elem_of_map_to_list). eauto.
    + intros [l Hl]. exists (from, l). by rewrite elem_of_map_to_list.
Qed.

Lemma total_map_range l : total (map_range (St:=St) (Ev:=Ev) l).
Proof.
  intros σ Hnil.
  assert ((map_to_list (maps σ !!! l), σ) ∈ map_range l σ) as Hin
    by by apply elem_of_map_range.
  rewrite Hnil in Hin. by apply not_elem_of_nil in Hin.
Qed.

Lemma total_transitions_range : total (transitions_range (St:=St) (Ev:=Ev)).
Proof.
  intros σ Hnil.
  assert (((map_to_list σ.(sm_transitions)).*1, σ) ∈ transitions_range σ) as Hin.
  { unfold transitions_range. rewrite list_elem_of_fmap.
    eexists. split; [done|]. apply permutations_refl. }
  rewrite Hnil in Hin. by apply not_elem_of_nil in Hin.
Qed.

Lemma IsTerminalState_run σ s :
  IsTerminalState s σ =
    [(match table σ !! s with
      | None => true
      | Some m => bool_decide (size m = 0)
      end, σ)].
Proof.
  unfold IsTerminalState, table. rewrite lookup_fmap.
  rewrite (bind_run _ _ σ (σ.(sm_transitions) !! s) σ) by done.
  destruct (σ.(sm_transitions) !! s) as [l|]; simpl; [|done].
  by rewrite (bind_run _ _ σ (size (σ.(maps) !!! l)) σ).
Qed.

Lemma GetValidEvents_outcome σ s events σ' :
  (events, σ') ∈ GetValidEvents s σ →
  σ' = σ ∧ NoDup events ∧ ∀ e, e ∈ events ↔ is_Some (edge σ s e).
Proof.
  unfold GetValidEvents. rewrite elem_of_bind.
  intros (transitions & σ1 & [= -> ->]%list_elem_of_singleton & Hrest).
  assert (∀ e, edge σ s e = l ← σ.(sm_transitions) !! s; (σ.(maps) !!! l) !! e)
    as Hedge by (intros; apply edge_unfold).
  destruct (σ.(sm_transitions) !! s) as [l|].
  - apply elem_of_bind in Hrest
      as (kvs & σ1 & [-> Hperm]%elem_of_map_range & Hloop).
    rewrite for_range_pure, foldl_append_fst in Hloop.
    apply list_elem_of_singleton in Hloop as [= -> ->]. simpl.
    split; [done|]. split.
    + rewrite <- Hperm. apply NoDup_fst_map_to_list.
    + intros e. rewrite Hedge, <- Hperm, list_elem_of_fmap. simpl. split.
      * intros ([e' to] & -> & Hin%elem_of_map_to_list). eauto.
      * intros [to Hto]. exists (e, to). by rewrite elem_of_map_to_list.
  - apply elem_of_ret in Hrest as [-> ->].
    split; [done|]. split; [constructor|].
    intros e. rewrite Hedge. simpl. split.
    + by intros ?%not_elem_of_nil.
    + by intros ?%is_Some_None.
Qed.

Lemma total_GetValidEvents s : total (GetValidEvents (Ev:=Ev) s).
Proof.
  apply total_bind; [done|]. intros [l|]; [|apply total_ret].
  apply total_bind; [apply total_map_range|].
  intros kvs σ. by rewrite for_range_pure.
Qed.

Lemma total_for_range {A X} (body : A → X → M (memory St Ev) A) xs :
  (∀ a x, total (body a x)) → ∀ a, total (for_range xs body a).
Proof.
  intros Hbody. induction xs as [|x xs IH]; intros a; [apply total_ret|].
  cbn [for_range]. by apply total_bind.
Qed.

Lemma note_state_spec (acc : list St * gmap St bool) s :
  seen_inv acc →
  seen_inv (note_state acc s) ∧
  ∀ s', s' ∈ (note_state acc s).1 ↔ s' ∈ acc.1 ∨ s' = s.
Proof.
  intros [Hnodup Hseen]. unfold note_state.
  destruct (default false (acc.2 !! s)) eqn:Hs; simpl.
  - apply Hseen in Hs. split; [done|]. intros s'. split; [by left|].
    by intros [?| ->].
  - assert (s ∉ acc.1) as Hnew by (rewrite <- Hseen; congruence).
    split; [split|]; simpl.
    + apply NoDup_app. repeat split; [done| |apply NoDup_singleton].
      intros s' Hin ->%list_elem_of_singleton. done.
    + intros s'. rewrite elem_of_app, list_elem_of_singleton.
      destruct (decide (s' = s)) as [->|Hne].
      * rewrite lookup_insert_eq. simpl. split; [by right|done].
      * rewrite lookup_insert_ne by done. rewrite Hseen. split; [by left|].
        by intros [?|?].
    + intros s'. by rewrite elem_of_app, list_elem_of_singleton.
Qed.

Lemma foldl_note_state_spec {X} (g : X → St) (xs : list X) : ∀ acc,
  seen_inv acc →
  seen_inv (foldl (λ acc x, note_state acc (g x)) acc xs) ∧
  ∀ s, s ∈ (foldl (λ acc x, note_state acc (g x)) acc xs).1 ↔
       s ∈ acc.1 ∨ ∃ x, x ∈ xs ∧ g x = s.
Proof.
  induction xs as [|x xs IH]; intros acc Hinv; simpl.
  { split; [done|]. intros s. split; [by left|].
    by intros [?|(? & ?%not_elem_of_nil & _)]. }
  destruct (note_state_spec acc (g x) Hinv) as [Hinv1 Hin1].
  destruct (IH _ Hinv1) as [Hinv2 Hin2]. split; [done|].
  intros s. rewrite Hin2, Hin1. split.
  - intros [[?| ->]|(x' & Hx' & <-)]; [by left|right..].
    + exists x. split; [left|done].
    + exists x'. split; [by right|done].
  - intros [?|(x' & [->|Hx']%elem_of_cons & <-)]; [by left; left| |].
    + by left; right.
    + right. by exists x'.
Qed.

Lemma GetAllStates_body_outcome σ acc from acc' σ' :
  (acc', σ') ∈ GetAllStates_body acc from σ →
  seen_inv acc →
  σ' = σ ∧ seen_inv acc' ∧
  ∀ s, s ∈ acc'.1 ↔ s ∈ acc.1 ∨ s = from ∨ ∃ e, edge σ from e = Some s.
Proof.
  unfold GetAllStates_body. rewrite elem_of_bind.
  intros (inner & σ1 & [= -> ->]%list_elem_of_singleton & Hrest) Hinv.
  destruct (note_state_spec acc from Hinv) as [Hinv1 Hin1].
  assert (∀ e, edge σ from e = l ← σ.(sm_transitions) !! from; (σ.(maps) !!! l) !! e)
    as Hedge by (intros; apply edge_unfold).
  destruct (σ.(sm_transitions) !! from) as [l|].
  - apply elem_of_bind in Hrest
      as (kvs & σ1 & [-> Hperm]%elem_of_map_range & Hloop).
    rewrite for_range_pure in Hloop.
    apply list_elem_of_singleton in Hloop as [= -> ->].
    destruct (foldl_note_state_spec snd kvs _ Hinv1) as [Hinv2 Hin2].
    split; [done|]. split; [done|].
    intros s. rewrite Hin2, Hin1. split.
    + intros [[?|?]|([e to] & Hkv & <-)]; [by left|by right; left|].
      right; right. exists e. rewrite Hedge. simpl.
      apply elem_of_map_to_list. by rewrite Hperm.
    + intros [?|[?|[e He]]]; [by left; left|by left; right|]. right.
      exists (e, s). split; [|done]. rewrite <- Hperm.
      apply elem_of_map_to_list. by rewrite Hedge in He.
  - apply elem_of_ret in Hrest as [-> ->].
    split; [done|]. split; [done|]. intros s. rewrite Hin1. split.
    + intros [?|?]; [by left|by right; left].
    + intros [?|[?|[e He]]]; [by left|by right|].
      by rewrite Hedge in He.
Qed.

Lemma GetAllStates_loop_outcome σ froms : ∀ acc acc' σ',
  (acc', σ') ∈ for_range froms GetAllStates_body acc σ →
  seen_inv acc →
  σ' = σ ∧ seen_inv acc' ∧
  ∀ s, s ∈ acc'.1 ↔
       s ∈ acc.1 ∨
       ∃ from, from ∈ froms ∧ (s = from ∨ ∃ e, edge σ from e = Some s).
Proof.
  induction froms as [|from froms IH]; intros acc acc' σ'.
  { intros [-> ->]%elem_of_ret Hinv. split; [done|]. split; [done|].
    intros s. split; [by left|].
    by intros [?|(? & ?%not_elem_of_nil & _)]. }
  cbn [for_range]. rewrite elem_of_bind.
  intros (acc1 & σ1 & Hbody & Hrest) Hinv.
  destruct (GetAllStates_body_outcome _ _ _ _ _ Hbody Hinv)
    as (-> & Hinv1 & Hin1).
  destruct (IH _ _ _ Hrest Hinv1) as (-> & Hinv2 & Hin2).
  split; [done|]. split; [done|].
  intros s. rewrite Hin2, Hin1. split.
  - intros [[?|Hfrom]|(f & Hf & Hs)]; [by left|right..].
    + exists from. split; [left|done].
    + exists f. split; [by right|done].
  - intros [?|(f & [->|Hf]%elem_of_cons & Hs)]; [by left; left|by left; right|].
    right. by exists f.
Qed.

Lemma total_GetAllStates : total (GetAllStates (St:=St) (Ev:=Ev)).
Proof.
  apply total_bind; [apply total_transitions_range|]. intros froms.
  apply total_bind; [|intros; apply total_ret].
  apply total_for_range. intros acc from.
  apply total_bind; [done|]. intros [l|]; [|apply total_ret].
  apply total_bind; [apply total_map_range|].
  intros kvs σ. by rewrite for_range_pure.
Qed.

Lemma GetAllStates_outcome σ states σ' :
  table_inv σ →
  (states, σ') ∈ GetAllStates σ →
  σ' = σ ∧ NoDup states ∧
  ∀ s, s ∈ states ↔
       (∃ e to, edge σ s e = Some to) ∨ (∃ from e, edge σ from e = Some s).
Proof.
  intros Hinv. unfold GetAllStates. rewrite elem_of_bind.
  intros (froms & σ1 & (-> & _ & Hfroms)%elem_of_transitions_range & Hrest).
  apply elem_of_bind in Hrest as (acc & σ1 & Hloop & [-> ->]%elem_of_ret).
  assert (seen_inv (([], ∅) : list St * gmap St bool)) as Hinit.
  { split; [constructor|]. intros s. simpl. rewrite lookup_empty. simpl.
    split; [done|]. by intros ?%not_elem_of_nil. }
  destruct (GetAllStates_loop_outcome _ _ _ _ _ Hloop Hinit)
    as (-> & [Hnodup _] & Hin).
  split; [done|]. split; [done|].
  assert (∀ from, is_Some (σ.(sm_transitions) !! from) ↔
                  ∃ e to, edge σ from e = Some to) as Hsource.
  { intros from. split.
    - intros [l Hl]. destruct (map_choose _ (inv_nonempty σ Hinv _ _ Hl))
        as (e & to & He).
      exists e, to. by rewrite edge_unfold, Hl.
    - intros (e & to & He). rewrite edge_unfold in He.
      by destruct (σ.(sm_transitions) !! from). }
  intros s. rewrite Hin. split.
  - intros [?%not_elem_of_nil|(from & Hfrom & [->|[e He]])]; [done| |].
    + left. by apply Hsource, Hfroms.
    + right. eauto.
  - intros [Hs|(from & e & He)]; right.
    + exists s. split; [by apply Hfroms, Hsource|by left].
    + exists from. split; [|by eauto].
      apply Hfroms, Hsource. eauto.
Qed.

(** C5. On a machine the package built, [GetAllStates] always returns,
    leaves the memory alone, and whatever order the map iterations take,
    the slice it returns holds no state twice and holds exactly the states
    that are the source or the destination of a registered edge. *)
Theorem GetAllStates_exact σ :
  table_inv σ →
  GetAllStates σ ≠ [] ∧
  ∀ states σ', (states, σ') ∈ GetAllStates σ →
    σ' = σ ∧ NoDup states ∧
    ∀ s, s ∈ states ↔
         (∃ e to, edge σ s e = Some to) ∨ (∃ from e, edge σ from e = Some s).
Proof.
  intros Hinv. split; [apply total_GetAllStates|].
  intros states σ'. by apply GetAllStates_outcome.
Qed.

(** C4. [IsTerminalState] answers true exactly for a state with no
    registered outgoing edge, in particular for a state the machine has
    never seen as a source; for such a state [GetValidEvents] returns the
    empty slice. In general [GetValidEvents] returns, in one of the orders
    the map iteration may take, the events with a registered edge from the
    state, each once. Neither changes the memory. *)
Theorem terminal_and_valid_events σ s :
  ∃ b, IsTerminalState s σ = [(b, σ)] ∧
    (b = true ↔ ∀ e, edge σ s e = None) ∧
    (σ.(sm_transitions) !! s = None → b = true) ∧
    (b = true → GetValidEvents s σ = [([], σ)]) ∧
    GetValidEvents s σ ≠ [] ∧
    ∀ events σ', (events, σ') ∈ GetValidEvents s σ →
      σ' = σ ∧ NoDup events ∧ ∀ e, e ∈ events ↔ is_Some (edge σ s e).
Proof.
  eexists. split; [apply IsTerminalState_run|].
  assert (match table σ !! s with
          | None => true
          | Some m => bool_decide (size m = 0)
          end = true ↔ ∀ e, edge σ s e = None) as Hterminal.
  { unfold edge. destruct (table σ !! s) as [m|]; simpl; [|done].
    by rewrite bool_decide_eq_true, map_size_empty_iff, map_empty. }
  split; [done|]. split.
  { intros Hunknown. apply Hterminal. intros e. by apply edge_unknown. }
  split; [|split; [apply total_GetValidEvents|apply GetValidEvents_outcome]].
  intros Hb. pose proof (proj1 Hterminal Hb) as Hnone.
  unfold GetValidEvents.
  rewrite (bind_run _ _ σ (σ.(sm_transitions) !! s) σ) by done.
  destruct (σ.(sm_transitions) !! s) as [l|] eqn:Hs; [|done].
  assert (σ.(maps) !!! l = ∅) as Hempty.
  { apply map_empty. intros e. specialize (Hnone e).
    by rewrite edge_unfold, Hs in Hnone. }
  unfold bind, map_range. by rewrite Hempty, map_to_list_empty.
Qed.

End enumeration.

(** ** Reads leave the table alone *)
Section frame.
Context {St Ev : Type} `{State St} `{Event Ev}.
Implicit Types (σ : memory St Ev) (s from to : St) (event e : Ev).
Implicit Types (l result : loc) (m : gmap Ev St).

(** Writing through a reference the machine does not hold cannot be seen
    in the table... *)
Lemma table_caller_write σ l m :
  (∀ from l', σ.(sm_transitions) !! from = Some l' → l' ≠ l) →
  table (caller_write l m σ) = table σ.
Proof.
  intros Hfar. apply map_eq. intros from. unfold table. simpl.
  rewrite !lookup_fmap.
  destruct (σ.(sm_transitions) !! from) as [l'|] eqn:Hfrom; simpl; [|done].
  rewrite lookup_total_insert_ne; [done|]. symmetry. eauto.
Qed.

(** ...while writing through one of the machine's own references is: had
    [GetTransitions] returned the inner map itself, a caller could rewrite
    the edges of the state. *)
Lemma table_caller_write_aliased σ from l m :
  σ.(sm_transitions) !! from = Some l →
  table (caller_write l m σ) !! from = Some m.
Proof.
  intros Hfrom. unfold table. simpl. rewrite lookup_fmap, Hfrom. simpl.
  by rewrite lookup_total_insert_eq.
Qed.

Lemma table_inv_caller_write σ l m :
  table_inv σ →
  (∀ from l', σ.(sm_transitions) !! from = Some l' → l' ≠ l) →
  table_inv (caller_write l m σ).
Proof.
  intros [Halloc Hne Hunsh] Hfar. split; simpl.
  - intros from l' Hfrom. rewrite dom_insert_L. apply Halloc in Hfrom.
    set_solver.
  - intros from l' Hfrom.
    rewrite lookup_total_insert_ne by (symmetry; eauto). eauto.
  - done.
Qed.

(** Copying entry by entry, in any order without a repeated key, rebuilds
    the map. *)
Lemma foldl_insert_union (kvs : list (Ev * St)) : ∀ m,
  NoDup kvs.*1 →
  foldl (λ m kv, <[kv.1 := kv.2]> m) m kvs = list_to_map kvs ∪ m.
Proof.
  induction kvs as [|[k v] kvs IH]; intros m; simpl.
  { intros _. by rewrite (left_id_L ∅ (∪)). }
  intros [Hk Hnodup]%NoDup_cons. rewrite IH by done. simpl.
  rewrite <- insert_union_l.
  by rewrite <- insert_union_r by by apply not_elem_of_list_to_map_1.
Qed.

Lemma copy_loop_run (kvs : list (Ev * St)) result : ∀ σ m,
  σ.(maps) !! result = Some m →
  for_range kvs (λ _ kv, map_set result kv.1 kv.2) tt σ =
    [(tt, caller_write result (foldl (λ m kv, <[kv.1 := kv.2]> m) m kvs) σ)].
Proof.
  induction kvs as [|kv kvs IH]; intros σ m Hm.
  - unfold caller_write. simpl. rewrite insert_id by done. by destruct σ.
  - cbn [for_range foldl].
    rewrite (bind_run _ _ σ tt (caller_write result (<[kv.1 := kv.2]> m) σ)).
    2:{ unfold map_set, caller_write.
        by rewrite (lookup_total_correct _ _ _ Hm). }
    rewrite (IH _ (<[kv.1 := kv.2]> m))
      by (simpl; apply lookup_insert_eq).
    unfold caller_write. simpl. by rewrite insert_insert_eq.
Qed.

(** What [GetTransitions] does: it allocates a map object that did not
    exist, fills it with the outgoing edges of [from], and touches nothing
    else. *)
Lemma GetTransitions_outcome σ from result σ' :
  table_inv σ →
  (result, σ') ∈ GetTransitions from σ →
  (result ∉ dom σ.(maps)) ∧
  σ' = caller_write result (default ∅ (table σ !! from)) σ.
Proof.
  intros Hinv. unfold GetTransitions. rewrite elem_of_bind.
  intros (transitions & σ1 & [= -> ->]%list_elem_of_singleton & Hrest).
  unfold table. rewrite lookup_fmap.
  destruct (σ.(sm_transitions) !! from) as [l|] eqn:Hfrom; simpl.
  - apply elem_of_bind in Hrest
      as (r & σ1 & [= -> ->]%list_elem_of_singleton & Hrest).
    set (result' := fresh (dom σ.(maps))) in *.
    assert (result' ∉ dom σ.(maps)) as Hfresh by apply is_fresh.
    assert (l ≠ result') as Hl.
    { intros ->. by apply Hfresh, (inv_allocated σ Hinv from). }
    apply elem_of_bind in Hrest
      as (kvs & σ1 & [-> Hperm]%elem_of_map_range & Hrest).
    simpl in Hperm. rewrite lookup_total_insert_ne in Hperm by done.
    apply elem_of_bind in Hrest as (u & σ2 & Hloop & [-> ->]%elem_of_ret).
    rewrite (copy_loop_run kvs result' _ ∅)
      in Hloop by (simpl; apply lookup_insert_eq).
    apply list_elem_of_singleton in Hloop as [= -> ->].
    split; [done|]. unfold caller_write. simpl. f_equal.
    rewrite insert_insert_eq. f_equal.
    rewrite foldl_insert_union, (right_id_L ∅ (∪)).
    + rewrite <- (list_to_map_to_list (σ.(maps) !!! l)).
      symmetry. apply list_to_map_proper; [|done].
      apply NoDup_fst_map_to_list.
    + rewrite <- Hperm. apply NoDup_fst_map_to_list.
  - apply list_elem_of_singleton in Hrest as [= -> ->].
    split; [apply is_fresh|done].
Qed.

Lemma total_GetTransitions from : total (GetTransitions (Ev:=Ev) from).
Proof.
  apply total_bind; [done|]. intros [l|]; [|done].
  apply total_bind; [done|]. intros result.
  apply total_bind; [apply total_map_range|]. intros kvs.
  apply total_bind; [|intros; apply total_ret].
  apply total_for_range. by intros [] kv σ.
Qed.

Lemma GetAllStates_frame σ states σ' :
  (states, σ') ∈ GetAllStates σ → σ' = σ.
Proof.
  unfold GetAllStates. rewrite elem_of_bind.
  intros (froms & σ1 & (-> & _)%elem_of_transitions_range & Hrest).
  apply elem_of_bind in Hrest as (acc & σ1 & Hloop & [-> ->]%elem_of_ret).
  eapply GetAllStates_loop_outcome; [done|].
  split; [constructor|]. intros s. simpl. rewrite lookup_empty. simpl.
  split; [done|]. by intros ?%not_elem_of_nil.
Qed.

(** C8. No read changes the table. The lookups, the enumerations and the
    path validation return the memory they were given. [GetTransitions]
    returns a reference to a map object that did not exist before, holding
    the outgoing edges of the state; every object that existed is as it
    was, so the table is unchanged and keeps its invariant; and whatever a
    caller then writes through the returned reference, the table stays the
    same. *)
Theorem reads_preserve_table σ :
  table_inv σ →
  (∀ from event r σ', (r, σ') ∈ CanTransition from event σ → σ' = σ) ∧
  (∀ from event r σ', (r, σ') ∈ Transition from event σ → σ' = σ) ∧
  (∀ from event r σ', (r, σ') ∈ GetNextState from event σ → σ' = σ) ∧
  (∀ from r σ', (r, σ') ∈ GetValidEvents from σ → σ' = σ) ∧
  (∀ s r σ', (r, σ') ∈ IsTerminalState s σ → σ' = σ) ∧
  (∀ r σ', (r, σ') ∈ GetAllStates σ → σ' = σ) ∧
  (∀ start events r σ',
     (r, σ') ∈ ValidateTransitionPath start events σ → σ' = σ) ∧
  (∀ from, GetTransitions from σ ≠ []) ∧
  (∀ from result σ', (result, σ') ∈ GetTransitions from σ →
     (result ∉ dom σ.(maps)) ∧
     σ'.(sm_transitions) = σ.(sm_transitions) ∧
     σ'.(maps) = <[result := default ∅ (table σ !! from)]> σ.(maps) ∧
     table σ' = table σ ∧
     table_inv σ' ∧
     ∀ m, table (caller_write result m σ') = table σ ∧
          table_inv (caller_write result m σ')).
Proof.
  intros Hinv.
  split. { intros *. rewrite CanTransition_run.
           by intros [= _ ->]%list_elem_of_singleton. }
  split. { intros *. rewrite Transition_run.
           by intros [= _ ->]%list_elem_of_singleton. }
  split. { intros *. rewrite GetNextState_run.
           by intros [= _ ->]%list_elem_of_singleton. }
  split. { intros * Hin. by apply GetValidEvents_outcome in Hin as [-> _]. }
  split. { intros *. rewrite IsTerminalState_run.
           by intros [= _ ->]%list_elem_of_singleton. }
  split. { intros *. apply GetAllStates_frame. }
  split. { intros start events r σ'.
           destruct (ValidateTransitionPath_loop_spec σ events 0 start)
             as (r' & Hrun & _).
           unfold ValidateTransitionPath. rewrite Hrun.
           by intros [= _ ->]%list_elem_of_singleton. }
  split. { intros from. apply total_GetTransitions. }
  intros from result σ' Hout.
  destruct (GetTransitions_outcome _ _ _ _ Hinv Hout) as [Hnew ->].
  assert (∀ f l', σ.(sm_transitions) !! f = Some l' → l' ≠ result) as Hfar.
  { intros f l' Hf ->. by apply Hnew, (inv_allocated σ Hinv f). }
  split; [done|]. split; [done|]. split; [done|].
  split; [by apply table_caller_write|].
  split; [by apply table_inv_caller_write|].
  intros m.
  assert (caller_write result m
            (caller_write result (default ∅ (table σ !! from)) σ)
          = caller_write result m σ) as ->.
  { unfold caller_write. simpl. by rewrite insert_insert_eq. }
  split; [by apply table_caller_write|by apply table_inv_caller_write].
Qed.

End frame.


(** * The order workflow, run *)
Module OrderChecks.
Import Order.

Lemma machine_built : AddTransitions rules NewStateMachine = [(tt, machine)].
Proof.
  destruct (AddTransitions_run rules NewStateMachine) as [σ Hrun].
  unfold machine. by rewrite Hrun.
Qed.

Lemma machine_inv : table_inv machine.
Proof.
  exact (proj1 (edge_of_built rules machine "Pending" "Confirm" machine_built)).
Qed.

Lemma machine_edge from event :
  edge machine from event = last_write rules from event.
Proof. exact (proj2 (edge_of_built rules machine from event machine_built)). Qed.

Example confirm_pending :
  (Transition "Pending" "Confirm" machine).*1 = [("Processing", None)].
Proof. vm_compute. reflexivity. Qed.

Example cancel_shipped :
  (Transition "Shipped" "Cancel" machine).*1 =
    [(EmptyString, Some (Errorf_invalid_transition "Cancel" "Shipped"))].
Proof. vm_compute. reflexivity. Qed.

Example happy_path :
  (ValidateTransitionPath "Pending" ["Confirm"; "Ship"; "Deliver"] machine).*1
  = [("Delivered", None)].
Proof. vm_compute. reflexivity. Qed.

Example broken_path :
  (ValidateTransitionPath "Pending" ["Confirm"; "Ship"; "Cancel"; "Refund"]
     machine).*1 =
    [("Shipped",
      Some (Errorf_invalid_path 3
              (Errorf_invalid_transition "Cancel" "Shipped")))].
Proof. vm_compute. reflexivity. Qed.

Example broken_path_message :
  Error (Errorf_invalid_path 3 (Errorf_invalid_transition "Cancel" "Shipped"))
  = "invalid path at step 3: invalid transition: cannot process event 'Cancel' from state 'Shipped'".
Proof. vm_compute. reflexivity. Qed.

Example refunded_is_terminal :
  (IsTerminalState "Refunded" machine).*1 = [true].
Proof. vm_compute. reflexivity. Qed.

Example pending_events :
  (GetValidEvents "Pending" machine).*1 =
    [["Confirm"; "Cancel"]; ["Cancel"; "Confirm"]].
Proof. vm_compute. reflexivity. Qed.

Example all_states_first_order :
  head (GetAllStates machine).*1 =
    Some ["Shipped"; "Delivered"; "Cancelled"; "Refunded"; "Pending";
          "Processing"].
Proof. vm_compute. reflexivity. Qed.

Example on_hold_absent states σ' :
  (states, σ') ∈ GetAllStates machine → "OnHold" ∉ states.
Proof.
  intros (_ & _ & Hin)%(GetAllStates_outcome _ _ _ machine_inv) Hon.
  assert (Forall (λ t, t.(From) ≠ "OnHold" ∧ t.(To) ≠ "OnHold") rules)
    as Hrules by (repeat constructor; done).
  rewrite Forall_forall in Hrules.
  apply Hin in Hon as [(e & to & He)|(from & e & He)];
    rewrite machine_edge in He;
    apply last_write_rule in He as (t & [Hfrom Hto]%Hrules & ? & ? & ?);
    congruence.
Qed.

(** The theorems with a premise, at the order workflow. *)

Lemma miss_is_total_witness :
  edge machine "Refunded" "Cancel" = None ∧
  CanTransition "Refunded" "Cancel" machine = [(false, machine)] ∧
  Transition "Refunded" "Cancel" machine =
    [((state_zero, Some (Errorf_invalid_transition "Cancel" "Refunded")),
      machine)] ∧
  GetNextState "Refunded" "Cancel" machine = [((state_zero, false), machine)] ∧
  (machine.(sm_transitions) !! "Refunded" = None →
   ∀ event', CanTransition "Refunded" event' machine = [(false, machine)]).
Proof.
  split; [vm_compute; reflexivity|].
  apply (miss_is_total machine "Refunded" "Cancel").
  vm_compute; reflexivity.
Defined.

Lemma Transition_miss_returns_zero_witness :
  edge machine "Shipped" "Cancel" = None ∧
  ∃ err,
    Transition "Shipped" "Cancel" machine = [((state_zero, Some err), machine)] ∧
    ("Shipped" ≠ state_zero →
     ∀ r σ', (r, σ') ∈ Transition "Shipped" "Cancel" machine → r.1 ≠ "Shipped").
Proof.
  split; [vm_compute; reflexivity|].
  apply (Transition_miss_returns_zero machine "Shipped" "Cancel").
  vm_compute; reflexivity.
Defined.

Lemma ValidateTransitionPath_failure_state_witness :
  (("Shipped",
    Some (Errorf_invalid_path 3 (Errorf_invalid_transition "Cancel" "Shipped"))),
   machine)
    ∈ ValidateTransitionPath "Pending" ["Confirm"; "Ship"; "Cancel"; "Refund"]
        machine ∧
  ∃ i event cause,
    Errorf_invalid_path 3 (Errorf_invalid_transition "Cancel" "Shipped") =
      Errorf_invalid_path i cause ∧ 1 ≤ i ∧
    ["Confirm"; "Ship"; "Cancel"; "Refund"] !! (i - 1) = Some event ∧
    fold_transition machine "Pending"
      (take (i - 1) ["Confirm"; "Ship"; "Cancel"; "Refund"]) = Some "Shipped" ∧
    (i = 1 → "Shipped" = "Pending") ∧
    Transition "Shipped" event machine = [((state_zero, Some cause), machine)] ∧
    fold_transition machine "Pending" ["Confirm"; "Ship"; "Cancel"; "Refund"]
      = None.
Proof.
  assert ((("Shipped",
            Some (Errorf_invalid_path 3
                    (Errorf_invalid_transition "Cancel" "Shipped"))),
           machine)
            ∈ ValidateTransitionPath "Pending"
                ["Confirm"; "Ship"; "Cancel"; "Refund"] machine) as Hfails.
  { apply elem_of_run; [apply ValidateTransitionPath_run|].
    vm_compute; reflexivity. }
  split; [exact Hfails|].
  exact (ValidateTransitionPath_failure_state machine "Pending"
           ["Confirm"; "Ship"; "Cancel"; "Refund"] "Shipped" _ machine Hfails).
Defined.

Lemma GetAllStates_exact_witness :
  table_inv machine ∧
  GetAllStates machine ≠ [] ∧
  ∀ states σ', (states, σ') ∈ GetAllStates machine →
    σ' = machine ∧ NoDup states ∧
    ∀ s, s ∈ states ↔
         (∃ e to, edge machine s e = Some to) ∨
         (∃ from e, edge machine from e = Some s).
Proof.
  split; [exact machine_inv|].
  exact (GetAllStates_exact machine machine_inv).
Defined.

Lemma AddTransitions_refines_register_each_witness :
  table_inv (NewStateMachine (St:=string) (Ev:=string)) ∧
  AddTransitions rules NewStateMachine = register_each rules NewStateMachine ∧
  ∃ σ', AddTransitions rules NewStateMachine = [(tt, σ')] ∧
    (table_inv (NewStateMachine (St:=string) (Ev:=string)) →
     table_inv σ' ∧
     ∀ from event,
       edge σ' from event =
         match last_write rules from event with
         | Some to => Some to
         | None => edge NewStateMachine from event
         end).
Proof.
  split; [exact table_inv_NewStateMachine|].
  exact (AddTransitions_refines_register_each rules NewStateMachine).
Defined.

Lemma reads_preserve_table_witness :
  table_inv machine ∧
  (∀ from event r σ', (r, σ') ∈ CanTransition from event machine → σ' = machine) ∧
  (∀ from event r σ', (r, σ') ∈ Transition from event machine → σ' = machine) ∧
  (∀ from event r σ', (r, σ') ∈ GetNextState from event machine → σ' = machine) ∧
  (∀ from r σ', (r, σ') ∈ GetValidEvents from machine → σ' = machine) ∧
  (∀ s r σ', (r, σ') ∈ IsTerminalState s machine → σ' = machine) ∧
  (∀ r σ', (r, σ') ∈ GetAllStates machine → σ' = machine) ∧
  (∀ start events r σ',
     (r, σ') ∈ ValidateTransitionPath start events machine → σ' = machine) ∧
  (∀ from, GetTransitions from machine ≠ []) ∧
  (∀ from result σ', (result, σ') ∈ GetTransitions from machine →
     (result ∉ dom machine.(maps)) ∧
     σ'.(sm_transitions) = machine.(sm_transitions) ∧
     σ'.(maps) = <[result := default ∅ (table machine !! from)]> machine.(maps) ∧
     table σ' = table machine ∧
     table_inv σ' ∧
     ∀ m, table (caller_write result m σ') = table machine ∧
          table_inv (caller_write result m σ')).
Proof.
  split; [exact machine_inv|].
  exact (reads_preserve_table machine machine_inv).
Defined.

End OrderChecks.

(** * Further properties of the methods *)

(** ** Lookups and registration *)
Section more_registration.
Context {St Ev : Type} `{State St} `{Event Ev}.
Implicit Types (σ : memory St Ev) (s from to : St) (event e : Ev).
Implicit Types (edges : list (Transition_rule St Ev)).

(** X1. The three lookups answer alike on every pair: [CanTransition] is
    true exactly when [Transition] returns no error, which is exactly when
    [GetNextState] reports presence; [Transition] and [GetNextState] return
    the same state, the registered destination on a hit. *)
Theorem lookups_agree σ from event :
  ∃ b r n,
    CanTransition from event σ = [(b, σ)] ∧
    Transition from event σ = [(r, σ)] ∧
    GetNextState from event σ = [(n, σ)] ∧
    (b = true ↔ r.2 = None) ∧ n.2 = b ∧ n.1 = r.1 ∧
    (b = true → edge σ from event = Some r.1).
Proof.
  eexists _, _, _.
  split; [apply CanTransition_run|]. split; [apply Transition_run|].
  split; [apply GetNextState_run|].
  destruct (edge σ from event) as [to|]; simpl; by repeat split.
Qed.

(** X2. On a machine the package built, [AddTransition] sets the
    destination of its own key and leaves the destination of every other
    key as it was; the invariant holds afterwards. *)
Theorem AddTransition_changes_one_key σ σ' from event to :
  table_inv σ →
  (tt, σ') ∈ AddTransition from event to σ →
  table_inv σ' ∧
  ∀ f e, edge σ' f e =
         if decide (f = from ∧ e = event) then Some to else edge σ f e.
Proof.
  intros Hinv Hout.
  assert (AddTransition from event to σ = [(tt, σ')]) as Hrun.
  { rewrite AddTransition_run in Hout |- *.
    by apply list_elem_of_singleton in Hout as ->. }
  split.
  - by destruct (AddTransition_table _ _ _ _ _ Hinv Hrun).
  - intros f e. by apply AddTransition_edge.
Qed.

(** X3. Registering the same edge a second time changes nothing at all:
    the memory after the second call is the memory after the first. *)
Theorem AddTransition_idempotent σ from event to :
  ∃ σ1, AddTransition from event to σ = [(tt, σ1)] ∧
        AddTransition from event to σ1 = [(tt, σ1)].
Proof.
  eexists. split; [apply AddTransition_run|].
  rewrite AddTransition_run.
  destruct (σ.(sm_transitions) !! from) as [l|] eqn:Hfrom; simpl.
  - rewrite Hfrom. do 3 f_equal.
    by rewrite lookup_total_insert_eq, !insert_insert_eq.
  - rewrite lookup_insert_eq. do 3 f_equal.
    rewrite lookup_total_insert_eq, insert_insert_eq.
    by rewrite insert_singleton_eq.
Qed.

Lemma table_after_AddTransition σ σ' from event to :
  table_inv σ →
  (tt, σ') ∈ AddTransition from event to σ →
  table_inv σ' ∧
  table σ' =
    <[from := <[event := to]> (default ∅ (table σ !! from))]> (table σ).
Proof.
  intros Hinv Hout. apply AddTransition_table; [done|].
  rewrite AddTransition_run in Hout |- *.
  by apply list_elem_of_singleton in Hout as ->.
Qed.

(** X4. On a machine the package built, two registrations with different
    keys can be made in either order: the resulting tables are the same. *)
Theorem AddTransition_commute σ from1 event1 to1 from2 event2 to2
    σ1 σ12 σ2 σ21 :
  table_inv σ →
  (from1, event1) ≠ (from2, event2) →
  (tt, σ1) ∈ AddTransition from1 event1 to1 σ →
  (tt, σ12) ∈ AddTransition from2 event2 to2 σ1 →
  (tt, σ2) ∈ AddTransition from2 event2 to2 σ →
  (tt, σ21) ∈ AddTransition from1 event1 to1 σ2 →
  table σ12 = table σ21.
Proof.
  intros Hinv Hkey Hr1 Hr12 Hr2 Hr21.
  destruct (table_after_AddTransition _ _ _ _ _ Hinv Hr1) as [Hinv1 Ht1].
  destruct (table_after_AddTransition _ _ _ _ _ Hinv1 Hr12) as [_ Ht12].
  destruct (table_after_AddTransition _ _ _ _ _ Hinv Hr2) as [Hinv2 Ht2].
  destruct (table_after_AddTransition _ _ _ _ _ Hinv2 Hr21) as [_ Ht21].
  rewrite Ht12, Ht21, Ht1, Ht2.
  destruct (decide (from1 = from2)) as [<-|Hfrom].
  - rewrite !lookup_insert_eq, !insert_insert_eq. simpl. f_equal.
    apply insert_insert_ne. congruence.
  - rewrite (lookup_insert_ne _ from1 from2) by done.
    rewrite (lookup_insert_ne _ from2 from1) by done.
    by apply insert_insert_ne.
Qed.

(** X5. Registration never removes an edge: on a machine the package
    built, a pair that was accepted before a batch is accepted after it
    (possibly with another destination), and a state that was not terminal
    is not terminal afterwards. *)
Theorem registration_never_removes σ σ' edges from event :
  table_inv σ →
  (tt, σ') ∈ AddTransitions edges σ →
  CanTransition from event σ = [(true, σ)] →
  CanTransition from event σ' = [(true, σ')] ∧
  IsTerminalState from σ' = [(false, σ')].
Proof.
  intros Hinv Hout. rewrite !CanTransition_run. intros [= Hcan].
  apply bool_decide_eq_true in Hcan.
  destruct (AddTransitions_run edges σ) as [σ'' Hrun].
  rewrite Hrun in Hout. apply list_elem_of_singleton in Hout as [= <-].
  destruct (AddTransitions_table_inv edges _ _ Hinv Hrun) as [_ Hedge].
  assert (is_Some (edge σ' from event)) as Hsome.
  { rewrite Hedge. by destruct (last_write edges from event). }
  split; [by rewrite bool_decide_true|].
  rewrite IsTerminalState_run. unfold edge in Hsome.
  destruct (table σ' !! from) as [m|]; simpl in *;
    [|by apply is_Some_None in Hsome].
  rewrite bool_decide_false; [done|].
  intros ->%map_size_empty_iff. rewrite lookup_empty in Hsome.
  by apply is_Some_None in Hsome.
Qed.

(** X6. A batch may be split: registering [edges1 ++ edges2] in one call
    is registering [edges1] and then [edges2]. *)
Theorem AddTransitions_app σ edges1 edges2 :
  AddTransitions (edges1 ++ edges2) σ =
    bind (AddTransitions edges1) (λ _, AddTransitions edges2) σ.
Proof.
  revert σ. induction edges1 as [|t edges1 IH]; intros σ.
  - by rewrite (bind_run _ _ σ tt σ).
  - rewrite <- app_comm_cons, AddTransitions_cons.
    assert (∃ σ1, AddTransition t.(From) t.(Event_) t.(To) σ = [(tt, σ1)])
      as [σ1 Hone] by (eexists; apply AddTransition_run).
    rewrite (bind_run _ _ _ _ _ Hone), IH.
    destruct (AddTransitions_run edges1 σ1) as [σ2 Hrun].
    rewrite (bind_run _ _ _ _ _ Hrun).
    assert (AddTransitions (t :: edges1) σ = [(tt, σ2)]) as Hboth
      by by rewrite AddTransitions_cons, (bind_run _ _ _ _ _ Hone).
    by rewrite (bind_run _ _ _ _ _ Hboth).
Qed.

(** X7. What a registration makes visible: on a machine the package
    built, after [AddTransition from event to] the state [from] is not
    terminal, [event] is among its valid events, [Transition] yields [to],
    and both [from] and [to] are among all states, whatever order the map
    iterations take. *)
Theorem AddTransition_then_queries σ σ' from event to :
  table_inv σ →
  (tt, σ') ∈ AddTransition from event to σ →
  Transition from event σ' = [((to, None), σ')] ∧
  IsTerminalState from σ' = [(false, σ')] ∧
  (∀ events σ'', (events, σ'') ∈ GetValidEvents from σ' → event ∈ events) ∧
  (∀ states σ'', (states, σ'') ∈ GetAllStates σ' →
     from ∈ states ∧ to ∈ states).
Proof.
  intros Hinv Hout.
  destruct (table_after_AddTransition _ _ _ _ _ Hinv Hout) as [Hinv' Ht].
  assert (edge σ' from event = Some to) as Hedge.
  { unfold edge. rewrite Ht, lookup_insert_eq. simpl. apply lookup_insert_eq. }
  split; [by rewrite Transition_run, Hedge|].
  split.
  { rewrite IsTerminalState_run, Ht, lookup_insert_eq.
    rewrite bool_decide_false; [done|].
    intros Hsize%map_size_empty_iff. by apply insert_non_empty in Hsize. }
  split.
  - intros events σ'' (_ & _ & Hin)%GetValidEvents_outcome.
    apply Hin. by rewrite Hedge.
  - intros states σ'' (_ & _ & Hin)%(GetAllStates_outcome _ _ _ Hinv').
    split; apply Hin; [left|right]; eauto.
Qed.

End more_registration.

(** ** Paths *)
Section more_paths.
Context {St Ev : Type} `{State St} `{Event Ev}.
Implicit Types (σ : memory St Ev) (s start : St) (events : list Ev).

Lemma ValidateTransitionPath_loop_app σ events1 events2 : ∀ i s,
  ∃ r1, ValidateTransitionPath_loop i s events1 σ = [(r1, σ)] ∧
    match r1.2 with
    | Some _ =>
        ValidateTransitionPath_loop i s (events1 ++ events2) σ = [(r1, σ)]
    | None =>
        ValidateTransitionPath_loop i s (events1 ++ events2) σ =
          ValidateTransitionPath_loop (i + length events1) r1.1 events2 σ
    end.
Proof.
  induction events1 as [|event events1 IH]; intros i s.
  { exists (s, None). split; [done|]. simpl. by rewrite Nat.add_0_r. }
  rewrite <- app_comm_cons. cbn [ValidateTransitionPath_loop].
  erewrite !bind_run by apply Transition_run.
  destruct (edge σ s event) as [s'|]; simpl.
  - destruct (IH (S i) s') as (r1 & Hrun & Hrest). exists r1.
    split; [done|]. by replace (i + S (length events1))
                         with (S i + length events1) by lia.
  - by eexists.
Qed.

Lemma ValidateTransitionPath_loop_shift σ n events : ∀ i s,
  ∃ r, ValidateTransitionPath_loop i s events σ = [(r, σ)] ∧
       ValidateTransitionPath_loop (n + i) s events σ =
         [((r.1, shift_step n <$> r.2), σ)].
Proof.
  induction events as [|event events IH]; intros i s.
  { by exists (s, None). }
  cbn [ValidateTransitionPath_loop].
  erewrite !bind_run by apply Transition_run.
  destruct (edge σ s event) as [s'|]; simpl.
  - destruct (IH (S i) s') as (r & Hrun & Hshift). exists r.
    split; [done|]. by replace (S (n + i)) with (n + S i) by lia.
  - eexists. split; [done|]. simpl.
    by replace (n + i + 1) with (n + (i + 1)) by lia.
Qed.

(** X8. Validating a path in two parts: when the first part fails, the
    whole path fails with the same state and the same error; when it
    succeeds, the whole path returns what the second part returns from the
    state reached, a path error of the second part having its step number
    raised by the length of the first. *)
Theorem ValidateTransitionPath_app σ start events1 events2 :
  ∃ r1, ValidateTransitionPath start events1 σ = [(r1, σ)] ∧
    match r1.2 with
    | Some _ =>
        ValidateTransitionPath start (events1 ++ events2) σ = [(r1, σ)]
    | None =>
        ∃ r2, ValidateTransitionPath r1.1 events2 σ = [(r2, σ)] ∧
          ValidateTransitionPath start (events1 ++ events2) σ =
            [((r2.1, shift_step (length events1) <$> r2.2), σ)]
    end.
Proof.
  unfold ValidateTransitionPath.
  destruct (ValidateTransitionPath_loop_app σ events1 events2 0 start)
    as (r1 & Hrun1 & Hrest).
  exists r1. split; [done|]. destruct (r1.2); [done|].
  destruct (ValidateTransitionPath_loop_shift σ (length events1) events2 0 r1.1)
    as (r2 & Hrun2 & Hshift).
  exists r2. split; [done|].
  rewrite Hrest. simpl. by rewrite Nat.add_0_r in Hshift.
Qed.

End more_paths.

(** ** Enumerations and copies *)
Section more_enumeration.
Context {St Ev : Type} `{State St} `{Event Ev}.
Implicit Types (σ : memory St Ev) (s from to : St) (event e : Ev).

(** X9. The order of the slices is the only thing the map iteration
    decides: two results of [GetValidEvents] for the same state are
    permutations of each other, with one entry per outgoing edge; on a
    machine the package built, two results of [GetAllStates] are
    permutations of each other. *)
Theorem enumerations_differ_by_order_only σ :
  (∀ from events1 events2 σ1 σ2,
     (events1, σ1) ∈ GetValidEvents from σ →
     (events2, σ2) ∈ GetValidEvents from σ →
     events1 ≡ₚ events2 ∧
     length events1 = size (default ∅ (table σ !! from))) ∧
  (table_inv σ →
   ∀ states1 states2 σ1 σ2,
     (states1, σ1) ∈ GetAllStates σ →
     (states2, σ2) ∈ GetAllStates σ →
     states1 ≡ₚ states2).
Proof.
  split.
  - intros from events1 events2 σ1 σ2
      (_ & Hnodup1 & Hin1)%GetValidEvents_outcome
      (_ & Hnodup2 & Hin2)%GetValidEvents_outcome.
    split.
    + apply NoDup_Permutation; [done..|]. intros e. by rewrite Hin1, Hin2.
    + rewrite <- length_map_to_list,
        <- (length_fmap fst (map_to_list (default ∅ (table σ !! from)))).
      apply Permutation_length, NoDup_Permutation;
        [done|apply NoDup_fst_map_to_list|].
      intros e. rewrite Hin1, list_elem_of_fmap. unfold edge. split.
      * intros [to Hto]. exists (e, to). split; [done|].
        apply elem_of_map_to_list. by destruct (table σ !! from).
      * intros ([e' to] & -> & Hin%elem_of_map_to_list). simpl.
        destruct (table σ !! from); simpl in *; [by eauto|].
        by rewrite lookup_empty in Hin.
  - intros Hinv states1 states2 σ1 σ2
      (_ & Hnodup1 & Hin1)%(GetAllStates_outcome _ _ _ Hinv)
      (_ & Hnodup2 & Hin2)%(GetAllStates_outcome _ _ _ Hinv).
    apply NoDup_Permutation; [done..|]. intros s. by rewrite Hin1, Hin2.
Qed.

(** X10. On a machine the package built, the map [GetTransitions] returns
    holds, for every event, what the lookups answer for the state: its
    entries are the registered destinations, and its keys are the events
    [GetValidEvents] lists; this stays true of the map in the memory the
    call leaves, where the lookups still answer as before. *)
Theorem GetTransitions_agrees_with_lookups σ from result σ' :
  table_inv σ →
  (result, σ') ∈ GetTransitions from σ →
  (∀ event, (σ'.(maps) !!! result) !! event = edge σ from event) ∧
  (∀ f event, edge σ' f event = edge σ f event) ∧
  (∀ events σ'', (events, σ'') ∈ GetValidEvents from σ' →
     ∀ event, event ∈ events ↔ is_Some ((σ'.(maps) !!! result) !! event)).
Proof.
  intros Hinv Hout.
  destruct (GetTransitions_outcome _ _ _ _ Hinv Hout) as [Hnew ->].
  assert (table (caller_write result (default ∅ (table σ !! from)) σ)
          = table σ) as Htable.
  { apply table_caller_write. intros f l' Hf ->.
    by apply Hnew, (inv_allocated σ Hinv f). }
  assert (∀ event,
            (maps (caller_write result (default ∅ (table σ !! from)) σ)
               !!! result) !! event = edge σ from event) as Hcopy.
  { intros event. simpl. rewrite lookup_total_insert_eq. unfold edge.
    by destruct (table σ !! from). }
  split; [done|]. split.
  - intros f event. unfold edge. by rewrite Htable.
  - intros events σ'' (_ & _ & Hin)%GetValidEvents_outcome event.
    rewrite Hin, Hcopy. unfold edge. by rewrite Htable.
Qed.

(** X11. The machine [NewStateMachine] returns is empty: every lookup is a
    miss, every state is terminal with no valid event, there is no state to
    list, and a path of at least one event fails at step 1 from its start
    state. *)
Theorem NewStateMachine_empty (from : St) (event : Ev) (events : list Ev) :
  let σ := NewStateMachine in
  CanTransition from event σ = [(false, σ)] ∧
  Transition from event σ =
    [((state_zero, Some (Errorf_invalid_transition event from)), σ)] ∧
  GetNextState from event σ = [((state_zero, false), σ)] ∧
  IsTerminalState from σ = [(true, σ)] ∧
  GetValidEvents from σ = [([], σ)] ∧
  GetAllStates σ = [([], σ)] ∧
  ValidateTransitionPath from (event :: events) σ =
    [((from, Some (Errorf_invalid_path 1
                     (Errorf_invalid_transition event from))), σ)].
Proof.
  intros σ.
  assert (∀ f e, edge σ f e = None) as Hedge.
  { intros f e. apply edge_unknown. apply lookup_empty. }
  rewrite CanTransition_run, Transition_run, GetNextState_run,
    IsTerminalState_run, !Hedge.
  repeat split.
Qed.

End more_enumeration.

(** ** The invariant of the table *)
Section more_invariant.
Context {St Ev : Type} `{State St} `{Event Ev}.
Implicit Types (σ : memory St Ev) (c : call (St:=St) (Ev:=Ev)).

Lemma run_call_table_inv σ c σ' :
  table_inv σ → (tt, σ') ∈ run_call c σ → table_inv σ'.
Proof.
  intros Hinv. destruct c as [from event to|edges|from event|from event|from
    |from event|state|start events| |from]; simpl.
  - intros Hout. by destruct (table_after_AddTransition _ _ _ _ _ Hinv Hout).
  - destruct (AddTransitions_run edges σ) as [σ1 Hrun]. rewrite Hrun.
    intros [= <-]%list_elem_of_singleton.
    by destruct (AddTransitions_table_inv edges _ _ Hinv Hrun).
  - erewrite bind_run by apply CanTransition_run.
    by intros [_ ->]%elem_of_ret.
  - erewrite bind_run by apply Transition_run.
    by intros [_ ->]%elem_of_ret.
  - intros (events & σ1 & (-> & _)%GetValidEvents_outcome
              & [_ ->]%elem_of_ret)%elem_of_bind. done.
  - erewrite bind_run by apply GetNextState_run.
    by intros [_ ->]%elem_of_ret.
  - erewrite bind_run by apply IsTerminalState_run.
    by intros [_ ->]%elem_of_ret.
  - destruct (ValidateTransitionPath_run σ start events) as [r Hrun].
    erewrite bind_run by exact Hrun. by intros [_ ->]%elem_of_ret.
  - intros (states & σ1 & ->%GetAllStates_frame
              & [_ ->]%elem_of_ret)%elem_of_bind. done.
  - intros (result & σ1 & Hout & [_ ->]%elem_of_ret)%elem_of_bind.
    destruct (GetTransitions_outcome _ _ _ _ Hinv Hout) as [Hnew ->].
    apply table_inv_caller_write; [done|]. intros f l' Hf ->.
    by apply Hnew, (inv_allocated σ Hinv f).
Qed.

(** X12. The invariant of the table holds in every memory a program can
    reach: starting from [NewStateMachine], after any sequence of method
    calls, in any of their outcomes, interleaved with writes through map
    references the machine does not hold, every inner map of the machine is
    allocated, non-empty and held for one source state only. *)
Theorem reachable_table_inv σ : reachable σ → table_inv σ.
Proof.
  induction 1 as [|σ c σ' _ IH Hout|σ l m _ IH Hfar].
  - apply table_inv_NewStateMachine.
  - by apply (run_call_table_inv σ c).
  - apply table_inv_caller_write; [done|]. intros from l' Hfrom ->.
    by apply (Hfar from).
Qed.

End more_invariant.

(** ** Paths across registrations *)
Section paths_and_registration.
Context {St Ev : Type} `{State St} `{Event Ev}.
Implicit Types (σ : memory St Ev) (s start : St) (events : list Ev).

Lemma fold_transition_preserved σ σ' events : ∀ s final,
  (∀ f e to, edge σ f e = Some to → edge σ' f e = Some to) →
  fold_transition σ s events = Some final →
  fold_transition σ' s events = Some final.
Proof.
  induction events as [|event events IH]; intros s final Hkeep; [done|].
  rewrite !fold_transition_cons.
  destruct (edge σ s event) as [s'|] eqn:Hedge; [|done].
  rewrite (Hkeep _ _ _ Hedge). simpl. by apply IH.
Qed.

Lemma ValidateTransitionPath_success σ start events final :
  ValidateTransitionPath start events σ = [((final, None), σ)] ↔
  fold_transition σ start events = Some final.
Proof.
  destruct (ValidateTransitionPath_loop_spec σ events 0 start)
    as (r & Hrun & Hr).
  unfold ValidateTransitionPath. rewrite Hrun. destruct r as [s err].
  simpl in Hr.
  destruct Hr as [[-> Hfold]|(k & event & _ & _ & _ & -> & Hnone)].
  - rewrite Hfold. split; [by intros [= ->]|by intros [= ->]].
  - rewrite Hnone. split; [by intros [=]|by intros [=]].
Qed.

(** X18. Registering edges under keys that were free keeps every valid
    path valid: on a machine the package built, when no edge of the batch
    has a key that was registered before, a path that
    [ValidateTransitionPath] accepted is accepted afterwards, with the
    same final state. *)
Theorem new_keys_keep_valid_paths σ σ' edges start events final :
  table_inv σ →
  (tt, σ') ∈ AddTransitions edges σ →
  (∀ t, t ∈ edges → edge σ t.(From) t.(Event_) = None) →
  ValidateTransitionPath start events σ = [((final, None), σ)] →
  ValidateTransitionPath start events σ' = [((final, None), σ')].
Proof.
  intros Hinv Hout Hfree. rewrite !ValidateTransitionPath_success.
  destruct (AddTransitions_run edges σ) as [σ'' Hrun].
  rewrite Hrun in Hout. apply list_elem_of_singleton in Hout as [= <-].
  destruct (AddTransitions_table_inv edges _ _ Hinv Hrun) as [_ Hedge].
  apply fold_transition_preserved. intros f e to Hto. rewrite Hedge.
  destruct (last_write edges f e) as [to'|] eqn:Hlast; [|done].
  apply last_write_rule in Hlast as (t & Ht & <- & <- & _).
  apply Hfree in Ht. congruence.
Qed.

End paths_and_registration.

(** ** The services *)
Section more_workflows.
Context {St Ev : Type} `{State St} `{Event Ev}.
Implicit Types (edges : list (Transition_rule St Ev)).

(** The last write of a key, looked for among the edges of the event. *)
Lemma last_write_by_event edges (from : St) (event : Ev) :
  last_write edges from event =
    To <$> last (filter (λ t, t.(From) = from)
                   (filter (λ t, t.(Event_) = event) edges)).
Proof. unfold last_write. by rewrite list_filter_filter. Qed.

End more_workflows.

Module ServiceChecks.
Import Order.

Section order_service.
Context {float64 : Type}.
Implicit Types (σ : memory string string) (order : OrderService.Order float64).

(** X13. [TransitionOrder] moves the order along the registered edge and
    changes nothing else of it; when the event is not valid for the
    order's state it returns the error of [Transition] and leaves the order
    exactly as it was (the zero state [Transition] returned is not stored).
    It succeeds exactly when [CanTransition] accepts the pair. *)
Theorem TransitionOrder_outcome σ order (event : string) :
  ∃ order' err,
    OrderService.TransitionOrder order event σ = [((order', err), σ)] ∧
    (err = None ↔
     CanTransition order.(OrderService.State_) event σ = [(true, σ)]) ∧
    (∀ e, err = Some e →
       order' = order ∧
       e = Errorf_invalid_transition event order.(OrderService.State_)) ∧
    (err = None →
       edge σ order.(OrderService.State_) event
         = Some order'.(OrderService.State_) ∧
       order'.(OrderService.ID) = order.(OrderService.ID) ∧
       order'.(OrderService.Total) = order.(OrderService.Total) ∧
       order'.(OrderService.UserID) = order.(OrderService.UserID)).
Proof.
  unfold OrderService.TransitionOrder.
  erewrite bind_run by apply Transition_run. rewrite CanTransition_run.
  destruct (edge σ order.(OrderService.State_) event) as [to|]; simpl.
  - eexists _, _. split; [done|]. by repeat split.
  - eexists _, _. split; [done|].
    split; [done|]. split; [|done]. by intros e [= <-].
Qed.

End order_service.

(** The document workflow. *)
Lemma document_machine_edge from event :
  edge Document.machine from event = last_write Document.rules from event.
Proof.
  destruct (AddTransitions_run Document.rules NewStateMachine) as [σ Hrun].
  unfold Document.machine. rewrite Hrun.
  exact (proj2 (edge_of_built Document.rules σ from event Hrun)).
Qed.

(** X14. In the document workflow [CanUserApprove] answers true exactly
    for a document under review, and exactly then is [Approve] among the
    actions [GetAvailableActions] returns, whatever their order. *)
Theorem CanUserApprove_iff_reviewing (doc : Document.Document) :
  ∃ b, Document.CanUserApprove doc Document.machine
         = [(b, Document.machine)] ∧
       (b = true ↔ doc.(Document.State_) = "Reviewing") ∧
       Document.GetAvailableActions doc Document.machine ≠ [] ∧
       ∀ actions σ',
         (actions, σ') ∈ Document.GetAvailableActions doc Document.machine →
         ("Approve" ∈ actions ↔ b = true).
Proof.
  unfold Document.CanUserApprove. rewrite CanTransition_run.
  eexists. split; [reflexivity|].
  assert (is_Some (edge Document.machine doc.(Document.State_) "Approve")
          ↔ doc.(Document.State_) = "Reviewing") as Hedge.
  { rewrite document_machine_edge, last_write_by_event.
    assert (filter (λ t, t.(Event_) = "Approve") Document.rules
            = [mkTransition "Reviewing" "Approve" "Approved"]) as ->
      by (vm_compute; reflexivity).
    rewrite filter_cons. simpl.
    destruct (decide ("Reviewing" = doc.(Document.State_))) as [Heq|Hne];
      simpl.
    - split; [done|]. by eexists.
    - split; [by intros ?%is_Some_None|]. by intros Heq. }
  rewrite bool_decide_eq_true. split; [done|].
  split; [apply total_GetValidEvents|].
  intros actions σ' (_ & _ & Hin)%GetValidEvents_outcome.
  by rewrite bool_decide_eq_true, Hin.
Qed.

(** The signup workflow and [UserService]. *)
Lemma user_machine_edge from event :
  edge User.machine from event = last_write User.rules from event.
Proof.
  destruct (AddTransitions_run User.rules NewStateMachine) as [σ Hrun].
  unfold User.machine. rewrite Hrun.
  exact (proj2 (edge_of_built User.rules σ from event Hrun)).
Qed.

Section user_service.
Context {User Repo RepoError : Type}.
Context (User_State : User → string).
Context (GetByID : Z → Repo → (User * option RepoError) * Repo).
Context (UpdateState : Z → string → Repo → option RepoError * Repo).
Implicit Types (ρ : Repo) (σ : memory string string).

Local Abbreviation ProcessEvent :=
  (User.ProcessEvent User_State GetByID UpdateState).
Local Abbreviation CanProcessEvent :=
  (User.CanProcessEvent (RepoError:=RepoError) User_State GetByID).

Lemma machine_call_run {A} (m : M (memory string string) A) ρ σ a :
  m σ = [(a, σ)] →
  User.machine_call (Repo:=Repo) m (ρ, σ) = [(a, (ρ, σ))].
Proof. unfold User.machine_call. simpl. by intros ->. Qed.

Lemma ProcessEvent_run ρ σ userID event :
  ProcessEvent userID event (ρ, σ) =
    [ let g := GetByID userID ρ in
      match g.1.2 with
      | Some err => (Some (User.Errorf_failed_to_get_user err), (g.2, σ))
      | None =>
          match edge σ (User_State g.1.1) event with
          | None =>
              (Some (User.Errorf_invalid_state_transition
                       (Errorf_invalid_transition event (User_State g.1.1))),
               (g.2, σ))
          | Some to =>
              let u := UpdateState userID to g.2 in
              (User.Errorf_failed_to_update_user_state <$> u.1, (u.2, σ))
          end
      end ].
Proof.
  unfold User.ProcessEvent.
  rewrite (bind_run _ _ (ρ, σ) (GetByID userID ρ).1
             ((GetByID userID ρ).2, σ)) by done.
  simpl. destruct ((GetByID userID ρ).1.2) as [err|]; [done|].
  erewrite bind_run by (apply machine_call_run, Transition_run).
  destruct (edge σ (User_State (GetByID userID ρ).1.1) event) as [to|];
    simpl; [|done].
  rewrite (bind_run _ _ ((GetByID userID ρ).2, σ)
             (UpdateState userID to (GetByID userID ρ).2).1
             ((UpdateState userID to (GetByID userID ρ).2).2, σ)) by done.
  by destruct ((UpdateState userID to (GetByID userID ρ).2).1).
Qed.

(** X15. [ProcessEvent] stops at the first failure and writes to the
    repository only after a valid transition: when [GetByID] fails, or when
    the event is not valid for the user's state, it returns the wrapped
    error and the repository is as [GetByID] left it ([UpdateState] is not
    called); otherwise it calls [UpdateState] with the registered
    destination and returns nil or the wrapped error of that call. The
    machine is never changed. *)
Theorem ProcessEvent_outcome ρ σ userID event :
  ∃ result ρ',
    ProcessEvent userID event (ρ, σ) = [(result, (ρ', σ))] ∧
    let g := GetByID userID ρ in
    (∀ err, g.1.2 = Some err →
       result = Some (User.Errorf_failed_to_get_user err) ∧ ρ' = g.2) ∧
    (g.1.2 = None → edge σ (User_State g.1.1) event = None →
       result = Some (User.Errorf_invalid_state_transition
                        (Errorf_invalid_transition event (User_State g.1.1)))
       ∧ ρ' = g.2) ∧
    (∀ to, g.1.2 = None → edge σ (User_State g.1.1) event = Some to →
       result = User.Errorf_failed_to_update_user_state
                  <$> (UpdateState userID to g.2).1 ∧
       ρ' = (UpdateState userID to g.2).2).
Proof.
  rewrite ProcessEvent_run. simpl.
  destruct ((GetByID userID ρ).1.2) as [err|].
  { eexists _, _. split; [done|].
    split; [by intros ? [= <-]|]. by split. }
  destruct (edge σ (User_State (GetByID userID ρ).1.1) event) as [to|].
  - eexists _, _. split; [done|]. split; [done|].
    split; [done|]. by intros ? _ [= <-].
  - eexists _, _. split; [done|]. split; [done|]. by split.
Qed.

(** X16. [CanProcessEvent] predicts [ProcessEvent] run in the same state:
    it returns an error exactly when [GetByID] fails, and otherwise answers
    true exactly when [ProcessEvent] gets as far as [UpdateState], that is,
    when [ProcessEvent] does not fail with an invalid state transition. *)
Theorem CanProcessEvent_predicts ρ σ userID event :
  ∃ b err result ρ',
    CanProcessEvent userID event (ρ, σ)
      = [((b, err), ((GetByID userID ρ).2, σ))] ∧
    ProcessEvent userID event (ρ, σ) = [(result, (ρ', σ))] ∧
    (err = User.Errorf_failed_to_get_user <$> (GetByID userID ρ).1.2) ∧
    (err = None →
       (b = true ↔
        ∀ cause, result ≠ Some (User.Errorf_invalid_state_transition cause))).
Proof.
  rewrite ProcessEvent_run. unfold User.CanProcessEvent.
  rewrite (bind_run _ _ (ρ, σ) (GetByID userID ρ).1
             ((GetByID userID ρ).2, σ)) by done.
  simpl. destruct ((GetByID userID ρ).1.2) as [e|].
  { eexists _, _, _, _. by repeat split. }
  erewrite bind_run by (apply machine_call_run, CanTransition_run).
  destruct (edge σ (User_State (GetByID userID ρ).1.1) event) as [to|]; simpl.
  - eexists _, _, _, _. split; [done|]. split; [done|]. split; [done|].
    intros _. split; [|done]. intros _ cause.
    by destruct ((UpdateState userID to (GetByID userID ρ).2).1).
  - eexists _, _, _, _. split; [done|]. split; [done|]. split; [done|].
    intros _. split; [done|]. intros Hno. exfalso. by eapply Hno.
Qed.

Local Abbreviation GetValidEvents_of_user :=
  (User.GetValidEvents_of_user (RepoError:=RepoError) User_State GetByID).

(** X19. [UserService.GetValidEvents] always returns; when [GetByID]
    fails it returns no event and the wrapped error; otherwise it returns
    no error and lists, each once, exactly the events [CanProcessEvent]
    accepts for the user in the same state. *)
Theorem valid_events_are_processable ρ σ userID :
  GetValidEvents_of_user userID (ρ, σ) ≠ [] ∧
  ∀ events err ρσ',
    ((events, err), ρσ') ∈ GetValidEvents_of_user userID (ρ, σ) →
    let g := GetByID userID ρ in
    ρσ' = (g.2, σ) ∧
    err = User.Errorf_failed_to_get_user <$> g.1.2 ∧
    (is_Some g.1.2 → events = []) ∧
    (g.1.2 = None →
     NoDup events ∧
     ∀ event, event ∈ events ↔
              CanProcessEvent userID event (ρ, σ) = [((true, None), (g.2, σ))]).
Proof.
  unfold User.GetValidEvents_of_user, User.CanProcessEvent.
  assert (∀ B (k : User * option RepoError → M (Repo * memory string string) B),
            bind (User.repo_call (GetByID userID)) k (ρ, σ)
            = k (GetByID userID ρ).1 ((GetByID userID ρ).2, σ)) as Hget
    by (intros; by apply bind_run).
  rewrite Hget. setoid_rewrite Hget. simpl.
  destruct ((GetByID userID ρ).1.2) as [e|].
  { split; [done|]. intros events err ρσ' [= -> -> ->]%list_elem_of_singleton.
    by repeat split. }
  split.
  { apply total_bind; [|intros; apply total_ret].
    intros [ρ1 σ1]. unfold User.machine_call. simpl.
    pose proof (total_GetValidEvents
                  (Ev:=string) (User_State (GetByID userID ρ).1.1) σ1).
    by destruct (GetValidEvents _ σ1). }
  intros events err ρσ' (events' & ρσ1 & Hcall & [[= -> ->] ->]%elem_of_ret)
                          %elem_of_bind.
  unfold User.machine_call in Hcall. simpl in Hcall.
  apply list_elem_of_fmap in Hcall as ([events'' σ1] & [= -> ->] & Hout).
  apply GetValidEvents_outcome in Hout as (-> & Hnodup & Hin).
  split; [done|]. split; [done|]. split; [by intros ?%is_Some_None|].
  intros _. split; [done|]. intros event. rewrite Hin.
  erewrite bind_run by (apply machine_call_run, CanTransition_run).
  split.
  - intros Hsome. by rewrite bool_decide_true.
  - intros [= Hb%bool_decide_eq_true]. done.
Qed.

(** X17. The three steps of the signup workflow, for a user the
    repository finds. [VerifyEmail] stores [EmailVerified] exactly for a
    user pending verification, [CompleteProfile] stores [SignUpComplete]
    exactly for a verified user, and [RejectSignup] stores
    [SignupRejected] exactly for a user in one of the three open states;
    for a user in any other state each returns an invalid state transition
    and does not call [UpdateState]. *)
Theorem signup_methods_outcome ρ userID :
  let g := GetByID userID ρ in
  let st := User_State g.1.1 in
  let updated to :=
    [(User.Errorf_failed_to_update_user_state
        <$> (UpdateState userID to g.2).1,
      ((UpdateState userID to g.2).2, User.machine))] in
  let refused event :=
    [(Some (User.Errorf_invalid_state_transition
              (Errorf_invalid_transition event st)),
      (g.2, User.machine))] in
  g.1.2 = None →
  User.VerifyEmail User_State GetByID UpdateState userID (ρ, User.machine) =
    (if decide (st = "EmailPendingVerification")
     then updated "EmailVerified" else refused "ClickVerificationLink") ∧
  User.CompleteProfile User_State GetByID UpdateState userID (ρ, User.machine) =
    (if decide (st = "EmailVerified")
     then updated "SignUpComplete" else refused "CompleteProfile") ∧
  User.RejectSignup User_State GetByID UpdateState userID (ρ, User.machine) =
    (if decide (st ∈ ["Initial"; "EmailPendingVerification"; "EmailVerified"])
     then updated "SignupRejected" else refused "SignUpFailed").
Proof.
  intros g st updated refused Hfound.
  unfold User.VerifyEmail, User.CompleteProfile, User.RejectSignup.
  rewrite !ProcessEvent_run. cbv zeta.
  subst updated refused. cbv beta. subst st g. rewrite Hfound.
  set (st := User_State (GetByID userID ρ).1.1).
  rewrite !user_machine_edge, !last_write_by_event.
  assert (filter (λ t, t.(Event_) = "ClickVerificationLink") User.rules
          = [mkTransition "EmailPendingVerification" "ClickVerificationLink"
               "EmailVerified"]) as -> by (vm_compute; reflexivity).
  assert (filter (λ t, t.(Event_) = "CompleteProfile") User.rules
          = [mkTransition "EmailVerified" "CompleteProfile" "SignUpComplete"])
    as -> by (vm_compute; reflexivity).
  assert (filter (λ t, t.(Event_) = "SignUpFailed") User.rules
          = [mkTransition "Initial" "SignUpFailed" "SignupRejected";
             mkTransition "EmailPendingVerification" "SignUpFailed"
               "SignupRejected";
             mkTransition "EmailVerified" "SignUpFailed" "SignupRejected"])
    as -> by (vm_compute; reflexivity).
  rewrite !filter_cons, !filter_nil. cbn [From].
  split; [|split].
  - destruct (decide ("EmailPendingVerification" = st)) as [Heq|Hne].
    + by rewrite decide_True.
    + by rewrite decide_False.
  - destruct (decide ("EmailVerified" = st)) as [Heq|Hne].
    + by rewrite decide_True.
    + by rewrite decide_False.
  - destruct (decide ("Initial" = st)) as [Hi|Hi],
             (decide ("EmailPendingVerification" = st)) as [Hp|Hp],
             (decide ("EmailVerified" = st)) as [Hv|Hv];
      try (rewrite decide_True by (rewrite <- ?Hi, <- ?Hp, <- ?Hv; set_solver);
           done).
    rewrite decide_False; [done|].
    rewrite !elem_of_cons, elem_of_nil.
    intros [?|[?|[?|[]]]]; congruence.
Qed.

End user_service.

Lemma signup_methods_outcome_witness :
  let GetByID := λ (_ : Z) (ρ : string), ((ρ, None (A:=unit)), ρ) in
  let UpdateState := λ (_ : Z) (s _ : string), (None (A:=unit), s) in
  (GetByID 1%Z "EmailPendingVerification").1.2 = None ∧
  User.VerifyEmail id GetByID UpdateState 1
    ("EmailPendingVerification", User.machine)
    = [(None, ("EmailVerified", User.machine))] ∧
  User.CompleteProfile id GetByID UpdateState 1
    ("EmailPendingVerification", User.machine)
    = [(Some (User.Errorf_invalid_state_transition
                (Errorf_invalid_transition "CompleteProfile"
                   "EmailPendingVerification")),
        ("EmailPendingVerification", User.machine))] ∧
  User.RejectSignup id GetByID UpdateState 1
    ("EmailPendingVerification", User.machine)
    = [(None, ("SignupRejected", User.machine))].
Proof.
  split; [reflexivity|].
  exact (signup_methods_outcome id
           (λ (_ : Z) (ρ : string), ((ρ, None (A:=unit)), ρ))
           (λ (_ : Z) (s _ : string), (None (A:=unit), s))
           "EmailPendingVerification" 1 eq_refl).
Defined.

End ServiceChecks.

(** * The further properties, at the order workflow *)
Module MoreChecks.
Import Order OrderChecks.

Lemma outcome_of_total {Σ A} (m : M Σ A) (σ : Σ) :
  total m → ∃ a σ', (a, σ') ∈ m σ.
Proof.
  intros Htotal. specialize (Htotal σ).
  destruct (m σ) as [|[a σ'] rest]; [done|]. exists a, σ'. left.
Qed.

Lemma AddTransition_outcome (σ : memory string string) from event to :
  ∃ σ', (tt, σ') ∈ AddTransition from event to σ.
Proof.
  destruct (outcome_of_total _ σ (total_AddTransition from event to))
    as ([] & σ' & Hout).
  by exists σ'.
Qed.

Lemma AddTransition_changes_one_key_witness :
  ∃ σ',
    table_inv machine ∧
    (tt, σ') ∈ AddTransition "Shipped" "Cancel" "Cancelled" machine ∧
    table_inv σ' ∧
    ∀ f e, edge σ' f e =
           if decide (f = "Shipped" ∧ e = "Cancel")
           then Some "Cancelled" else edge machine f e.
Proof.
  destruct (AddTransition_outcome machine "Shipped" "Cancel" "Cancelled")
    as [σ' Hout].
  exists σ'. split; [exact machine_inv|]. split; [exact Hout|].
  exact (AddTransition_changes_one_key machine σ' "Shipped" "Cancel"
           "Cancelled" machine_inv Hout).
Defined.

Lemma AddTransition_commute_witness :
  ∃ σ1 σ12 σ2 σ21,
    table_inv machine ∧
    ("Shipped", "Cancel") ≠ ("Refunded", "Reopen") ∧
    (tt, σ1) ∈ AddTransition "Shipped" "Cancel" "Cancelled" machine ∧
    (tt, σ12) ∈ AddTransition "Refunded" "Reopen" "Pending" σ1 ∧
    (tt, σ2) ∈ AddTransition "Refunded" "Reopen" "Pending" machine ∧
    (tt, σ21) ∈ AddTransition "Shipped" "Cancel" "Cancelled" σ2 ∧
    table σ12 = table σ21.
Proof.
  destruct (AddTransition_outcome machine "Shipped" "Cancel" "Cancelled")
    as [σ1 Hout1].
  destruct (AddTransition_outcome σ1 "Refunded" "Reopen" "Pending")
    as [σ12 Hout12].
  destruct (AddTransition_outcome machine "Refunded" "Reopen" "Pending")
    as [σ2 Hout2].
  destruct (AddTransition_outcome σ2 "Shipped" "Cancel" "Cancelled")
    as [σ21 Hout21].
  assert (("Shipped", "Cancel") ≠ ("Refunded", "Reopen")) as Hkey by done.
  exists σ1, σ12, σ2, σ21. repeat (split; [assumption || exact machine_inv|]).
  exact (AddTransition_commute machine _ _ _ _ _ _ _ _ _ _
           machine_inv Hkey Hout1 Hout12 Hout2 Hout21).
Defined.

Lemma can_confirm_pending :
  CanTransition "Pending" "Confirm" machine = [(true, machine)].
Proof.
  rewrite CanTransition_run.
  assert (edge machine "Pending" "Confirm" = Some "Processing") as ->
    by (vm_compute; reflexivity).
  by rewrite bool_decide_true.
Qed.

Lemma registration_never_removes_witness :
  ∃ σ',
    table_inv machine ∧
    (tt, σ') ∈ AddTransitions
                 [mkTransition "Pending" "Confirm" "Shipped";
                  mkTransition "Shipped" "Cancel" "Cancelled"] machine ∧
    CanTransition "Pending" "Confirm" machine = [(true, machine)] ∧
    CanTransition "Pending" "Confirm" σ' = [(true, σ')] ∧
    IsTerminalState "Pending" σ' = [(false, σ')].
Proof.
  destruct (AddTransitions_run
              [mkTransition "Pending" "Confirm" "Shipped";
               mkTransition "Shipped" "Cancel" "Cancelled"] machine)
    as [σ' Hrun].
  assert ((tt, σ') ∈ AddTransitions
                       [mkTransition "Pending" "Confirm" "Shipped";
                        mkTransition "Shipped" "Cancel" "Cancelled"] machine)
    as Hout by (rewrite Hrun; left).
  exists σ'. split; [exact machine_inv|]. split; [exact Hout|].
  split; [exact can_confirm_pending|].
  exact (registration_never_removes machine σ' _ "Pending" "Confirm"
           machine_inv Hout can_confirm_pending).
Defined.

Lemma AddTransition_then_queries_witness :
  ∃ σ',
    table_inv machine ∧
    (tt, σ') ∈ AddTransition "Refunded" "Reopen" "OnHold" machine ∧
    Transition "Refunded" "Reopen" σ' = [(("OnHold", None), σ')] ∧
    IsTerminalState "Refunded" σ' = [(false, σ')] ∧
    (∀ events σ'', (events, σ'') ∈ GetValidEvents "Refunded" σ' →
       "Reopen" ∈ events) ∧
    (∀ states σ'', (states, σ'') ∈ GetAllStates σ' →
       "Refunded" ∈ states ∧ "OnHold" ∈ states).
Proof.
  destruct (AddTransition_outcome machine "Refunded" "Reopen" "OnHold")
    as [σ' Hout].
  exists σ'. split; [exact machine_inv|]. split; [exact Hout|].
  exact (AddTransition_then_queries machine σ' "Refunded" "Reopen" "OnHold"
           machine_inv Hout).
Defined.

Lemma GetTransitions_agrees_with_lookups_witness :
  ∃ result σ',
    table_inv machine ∧
    (result, σ') ∈ GetTransitions "Pending" machine ∧
    (∀ event, (σ'.(maps) !!! result) !! event = edge machine "Pending" event) ∧
    (∀ f event, edge σ' f event = edge machine f event) ∧
    (∀ events σ'', (events, σ'') ∈ GetValidEvents "Pending" σ' →
       ∀ event, event ∈ events ↔ is_Some ((σ'.(maps) !!! result) !! event)).
Proof.
  destruct (outcome_of_total _ machine (total_GetTransitions "Pending"))
    as (result & σ' & Hout).
  exists result, σ'. split; [exact machine_inv|]. split; [exact Hout|].
  exact (GetTransitions_agrees_with_lookups machine "Pending" result σ'
           machine_inv Hout).
Defined.

Lemma reachable_table_inv_witness :
  reachable machine ∧ table_inv machine.
Proof.
  assert (reachable machine) as Hreach.
  { apply (reachable_call NewStateMachine (call_AddTransitions rules));
      [apply reachable_new|].
    simpl. rewrite machine_built. left. }
  split; [exact Hreach|]. exact (reachable_table_inv machine Hreach).
Defined.

Lemma new_keys_keep_valid_paths_witness :
  ∃ σ',
    table_inv machine ∧
    (tt, σ') ∈ AddTransitions [mkTransition "Refunded" "Reopen" "Pending"]
                 machine ∧
    (∀ t, t ∈ [mkTransition "Refunded" "Reopen" "Pending"] →
          edge machine t.(From) t.(Event_) = None) ∧
    ValidateTransitionPath "Pending" ["Confirm"; "Ship"] machine
      = [(("Shipped", None), machine)] ∧
    ValidateTransitionPath "Pending" ["Confirm"; "Ship"] σ'
      = [(("Shipped", None), σ')].
Proof.
  destruct (AddTransitions_run [mkTransition "Refunded" "Reopen" "Pending"]
              machine) as [σ' Hrun].
  assert ((tt, σ') ∈ AddTransitions
                       [mkTransition "Refunded" "Reopen" "Pending"] machine)
    as Hout by (rewrite Hrun; left).
  assert (∀ t, t ∈ [mkTransition "Refunded" "Reopen" "Pending"] →
               edge machine t.(From) t.(Event_) = None) as Hfree.
  { intros t ->%list_elem_of_singleton. vm_compute. reflexivity. }
  assert (ValidateTransitionPath "Pending" ["Confirm"; "Ship"] machine
          = [(("Shipped", None), machine)]) as Hvalid.
  { apply ValidateTransitionPath_success. vm_compute. reflexivity. }
  exists σ'. split; [exact machine_inv|]. split; [exact Hout|].
  split; [exact Hfree|]. split; [exact Hvalid|].
  exact (new_keys_keep_valid_paths machine σ' _ "Pending" ["Confirm"; "Ship"]
           "Shipped" machine_inv Hout Hfree Hvalid).
Defined.

End MoreChecks.
